(** * find_solutions.py: subset-sum search and disjoint combination

    A shallow embedding of [find_constituents], [filter_unique_solutions],
    [print_unique_solutions] and [find_unique_solutions] of
    [find_solutions.py], and the properties of the two-stage search.

    - Python exceptions are values of [result]: a call either returns or
      raises [ValueError] / [IndexError].  The interpreter's recursion limit
      is not modelled.
    - The numbers of the search are kept behind the interface [Number]
      (addition, subtraction, comparison, [abs], [round]); the structural
      results hold for every implementation of it, binary64 included.  The
      concrete runs and the soundness result use the instance on exact
      rationals [Q], with [round] the decimal round-half-to-even.  The
      inputs of the runs are chosen so that every comparison falls the same
      way in binary64.
    - A Python [set] of index tuples is a [gset (list nat)]; a [for] over a
      set visits some enumeration of it, here [elements].
    - What is printed is a list of [line]s, each holding the values its
      f-string formats; the text of a formatted float is not modelled.
    - [find_constituents] calls itself on [used_indices + [index]], so on
      the constituents after [index]: the embedding recurses on that suffix
      ([search]); [search_step] gives the equation of the source back. *)

From Stdlib Require Import QArith Qround Qabs Qpower Qfield Lqa.
From stdpp Require Import base list sorting gmap.

Local Open Scope nat_scope.

(** ** Exceptions *)

Inductive exception : Set :=
| ValueError   (* min() of an empty sequence *)
| IndexError.  (* list index out of range *)

Inductive result (A : Type) : Type :=
| Return (a : A)
| Raise (e : exception).
Arguments Return {A} a.
Arguments Raise {A} e.

#[export] Instance result_bind : MBind result := λ A B k r,
  match r with
  | Return a => k a
  | Raise e => Raise e
  end.

#[export] Instance result_ret : MRet result := @Return.

(** ** Numbers *)

Class Number (R : Type) := {
  zero : R;                      (* the literal 0 *)
  add : R → R → R;               (* a + b *)
  sub : R → R → R;               (* a - b *)
  neg : R → R;                   (* -a *)
  absolute : R → R;              (* abs(a) *)
  ltb : R → R → bool;            (* a < b *)
  leb : R → R → bool;            (* a <= b *)
  round : R → Z → R;             (* round(a, ndigits) *)
  default_tol : R;               (* the literal 1e-4 *)
}.

(** The default value of the keyword argument [precision]. *)
Definition default_precision : Z := 3.

(** [SOLUTION = tuple[int, ...]] *)
Definition SOLUTION : Type := list nat.

Section Search.
Context {R : Type} `{Number R}.

(** [a > b] is [b < a]. *)
Definition gtb (a b : R) : bool := ltb b a.

(** [min(a, b)]: the second argument wins only when strictly smaller. *)
Definition min2 (a b : R) : R := if ltb b a then b else a.

(** [min(l)] of a list; raises [ValueError] on the empty list. *)
Definition min_list (l : list R) : result R :=
  match l with
  | [] => Raise ValueError
  | x :: l' => Return (fold_left min2 l' x)
  end.

(** [i in used_indices] on a list. *)
Definition mem (i : nat) (used_indices : list nat) : bool :=
  bool_decide (i ∈ used_indices).

(** [[c for i, c in enumerate(constituents) if i not in used_indices]] *)
Definition unused (constituents : list R) (used_indices : list nat) : list R :=
  (filter (λ ic, negb (mem ic.1 used_indices))
          (imap (λ i c, (i, c)) constituents)).*2.

(** [-tol <= x <= tol] *)
Definition within (tol x : R) : bool := leb (neg tol) x && leb x tol.

(** [sorted(l)] on a list of indices. *)
Definition sorted (l : list nat) : list nat := merge_sort Nat.le l.

(** [last_index + 1], with [last_index = used_indices[-1]] or [-1]. *)
Definition start_index_of (used_indices : list nat) : nat :=
  match last used_indices with
  | Some last_index => S last_index
  | None => 0
  end.

(** Lines 110-114: the rounded total and the clamped minimum of the
    constituents not yet used. *)
Definition prologue (constituents : list R) (total : R)
    (used_indices : list nat) (precision : Z) : result (R * R) :=
  let total := round total precision in
  min_remaining ← min_list (unused constituents used_indices);
  Return (total, min2 min_remaining zero).

(** The [for] loop of lines 116-133 over [rest = constituents[index:]],
    with [all_solutions] the set built so far.  The recursive call of
    line 127 passes neither [precision] nor [tol], so the callee runs with
    their defaults; it starts at [index + 1], that is on the tail of
    [rest], on which the recursion is structural. *)
Fixpoint search (constituents rest : list R) (index : nat)
    (used_indices : list nat) (total : R) (precision : Z) (tol : R)
    (min_remaining : R) (all_solutions : gset SOLUTION)
    : result (gset SOLUTION) :=
  match rest with
  | [] => Return all_solutions
  | constituent :: rest' =>
    let constituent := round constituent precision in
    if gtb constituent (add (add total tol) (absolute min_remaining)) then
      search constituents rest' (S index) used_indices total precision tol
             min_remaining all_solutions
    else if mem index used_indices then
      search constituents rest' (S index) used_indices total precision tol
             min_remaining all_solutions
    else
      let new_total := sub total constituent in
      if within tol new_total then
        search constituents rest' (S index) used_indices total precision tol
               min_remaining
               ({[ sorted (used_indices ++ [index]) ]} ∪ all_solutions)
      else
        solutions ←
          (tm ← prologue constituents new_total (used_indices ++ [index])
                         default_precision;
           search constituents rest' (S index) (used_indices ++ [index])
                  tm.1 default_precision default_tol tm.2 ∅);
        search constituents rest' (S index) used_indices total precision tol
               min_remaining (all_solutions ∪ solutions)
  end.

(** [find_constituents(constituents, total, used_indices=..., precision=...,
    tol=...)]; a call without [used_indices] is a call with [[]]. *)
Definition find_constituents (constituents : list R) (total : R)
    (used_indices : list nat) (precision : Z) (tol : R)
    : result (gset SOLUTION) :=
  let start_index := start_index_of used_indices in
  tm ← prologue constituents total used_indices precision;
  search constituents (drop start_index constituents) start_index
         used_indices tm.1 precision tol tm.2 ∅.

End Search.

(** ** Exact rationals *)

(** Nearest integer, ties to the even one. *)
Definition round_half_even (q : Q) : Z :=
  let f := Qfloor q in
  match Qcompare (q - inject_Z f) (1 # 2) with
  | Lt => f
  | Gt => (f + 1)%Z
  | Eq => if Z.even f then f else (f + 1)%Z
  end.

(** [round(q, ndigits)]: to the nearest multiple of [10^-ndigits]. *)
Definition Qround_digits (q : Q) (ndigits : Z) : Q :=
  let scale := Qpower (10 # 1) ndigits in
  Qred (inject_Z (round_half_even (q * scale)) / scale).

Definition Qltb (a b : Q) : bool :=
  match Qcompare a b with Lt => true | _ => false end.

#[export] Instance Q_Number : Number Q := {|
  zero := 0%Q;
  add := Qplus;
  sub := Qminus;
  neg := Qopp;
  absolute := Qabs;
  ltb := Qltb;
  leb := Qle_bool;
  round := Qround_digits;
  default_tol := (1 # 10000)%Q;
|}.

Definition ints (l : list Z) : list Q := inject_Z <$> l.

(** [q] has at most [ndigits] decimals: it is a multiple of
    [10^-ndigits]. *)
Definition decimal (ndigits : Z) (q : Q) : Prop :=
  ∃ z : Z, (q == inject_Z z / Qpower (10 # 1) ndigits)%Q.

(** The sum of a list of values. *)
Definition sum_list (values : list Q) : Q := foldr Qplus 0%Q values.

(** ** The disjoint combiner *)

(** [any(i in used_indices for i in solution)] *)
Definition overlaps (used_indices : gset nat) (solution : SOLUTION) : bool :=
  existsb (λ i, bool_decide (i ∈ used_indices)) solution.

(** The [for] loop of lines 165-176 over the solutions of the first total
    still to visit; [n] is [len(solutions)] and [recurse] the call of line
    171 on [solutions[1:]]. *)
Fixpoint combine (n : nat)
    (recurse : gset nat → result (list (list SOLUTION)))
    (used_indices : gset nat) (first : list SOLUTION)
    (all_solutions : list (list SOLUTION)) : result (list (list SOLUTION)) :=
  match first with
  | [] => Return all_solutions
  | solution :: first' =>
    if overlaps used_indices solution then
      combine n recurse used_indices first' all_solutions
    else if n =? 1 then
      combine n recurse used_indices first' (all_solutions ++ [[solution]])
    else
      new_solutions ← recurse (used_indices ∪ list_to_set solution);
      let new_solutions := (λ sol, solution :: sol) <$> new_solutions in
      combine n recurse used_indices first' (all_solutions ++ new_solutions)
  end.

(** [filter_unique_solutions(solutions, used_indices)].  Each solution set
    is given as the sequence in which the [for] statement enumerates it;
    [solutions[0]] raises [IndexError] on the empty list. *)
Fixpoint filter_unique_solutions (solutions : list (list SOLUTION))
    (used_indices : gset nat) : result (list (list SOLUTION)) :=
  match solutions with
  | [] => Raise IndexError
  | first :: others =>
    combine (length solutions) (filter_unique_solutions others)
            used_indices first []
  end.

Section Driver.
Context {R : Type} `{Number R}.

(** [find_unique_solutions(constituents, totals, tol=..., precision=...)],
    without the printing. *)
Definition find_unique_solutions (constituents totals : list R)
    (tol : R) (precision : Z) : result (list (list SOLUTION)) :=
  all_solutions ←
    mapM (λ total, find_constituents constituents total [] precision tol)
         totals;
  filter_unique_solutions (elements <$> all_solutions) ∅.

End Driver.

(** ** The search as specified *)

Section Specified.
Context {R : Type} `{Number R}.

(** Modelled from the spec, section 4.1 with section 3: the same
    backtracking search, with [precision] and [tol] fixed for the whole
    invocation, so handed on to every recursive step. *)
Fixpoint search_spec (constituents rest : list R) (index : nat)
    (used_indices : list nat) (total : R) (precision : Z) (tol : R)
    (min_remaining : R) (all_solutions : gset SOLUTION)
    : result (gset SOLUTION) :=
  match rest with
  | [] => Return all_solutions
  | constituent :: rest' =>
    let constituent := round constituent precision in
    if gtb constituent (add (add total tol) (absolute min_remaining)) then
      search_spec constituents rest' (S index) used_indices total precision
                  tol min_remaining all_solutions
    else if mem index used_indices then
      search_spec constituents rest' (S index) used_indices total precision
                  tol min_remaining all_solutions
    else
      let new_total := sub total constituent in
      if within tol new_total then
        search_spec constituents rest' (S index) used_indices total precision
                    tol min_remaining
                    ({[ sorted (used_indices ++ [index]) ]} ∪ all_solutions)
      else
        solutions ←
          (tm ← prologue constituents new_total (used_indices ++ [index])
                         precision;
           search_spec constituents rest' (S index) (used_indices ++ [index])
                       tm.1 precision tol tm.2 ∅);
        search_spec constituents rest' (S index) used_indices total precision
                    tol min_remaining (all_solutions ∪ solutions)
  end.

Definition find_constituents_spec (constituents : list R) (total : R)
    (used_indices : list nat) (precision : Z) (tol : R)
    : result (gset SOLUTION) :=
  let start_index := start_index_of used_indices in
  tm ← prologue constituents total used_indices precision;
  search_spec constituents (drop start_index constituents) start_index
              used_indices tm.1 precision tol tm.2 ∅.

(** The sum of the constituents at [indices], accumulated as in
    [print_unique_solutions] ([calc_total += constituents[index]]). *)
Definition calc_total (constituents : list R) (indices : SOLUTION) : R :=
  fold_left (λ calc_total index,
               add calc_total (default zero (constituents !! index)))
            indices zero.

(** The values at [solution] sum to [total] within [tol]. *)
Definition sums_to (tol : R) (constituents : list R) (total : R)
    (solution : SOLUTION) : bool :=
  within tol (sub total (calc_total constituents solution)).

(** The same under the rounding policy: both the total and the
    constituents rounded to [precision] decimals. *)
Definition sums_to_rounded (precision : Z) (tol : R) (constituents : list R)
    (total : R) (solution : SOLUTION) : bool :=
  sums_to tol ((λ c, round c precision) <$> constituents)
          (round total precision) solution.

(** A canonical index-subset of a list of [n] constituents. *)
Definition canonical (n : nat) (solution : SOLUTION) : Prop :=
  StronglySorted lt solution ∧ Forall (λ i, i < n) solution.

End Specified.

(** The per-total subsets of a combination share no index. *)
Fixpoint pairwise_disjoint (combination : list SOLUTION) : Prop :=
  match combination with
  | [] => True
  | solution :: others =>
    Forall (λ other, solution ## other) others ∧ pairwise_disjoint others
  end.

(** No index of the combination is in [used_indices]. *)
Definition avoids (used_indices : gset nat) (combination : list SOLUTION)
    : Prop :=
  Forall (Forall (λ i, i ∉ used_indices)) combination.

(** The choices of one solution per total, in the order of the solution
    sets, that never take an index twice nor one of [used_indices]. *)
Fixpoint choices (solutions : list (list SOLUTION)) (used_indices : gset nat)
    : list (list SOLUTION) :=
  match solutions with
  | [] => [[]]
  | first :: others =>
    solution ← first;
    if overlaps used_indices solution then []
    else (λ sol, solution :: sol) <$>
           choices others (used_indices ∪ list_to_set solution)
  end.

(** ** The printer *)

(** What a [print] call writes, with the values its f-string formats. *)
Inductive line (R : Type) : Type :=
| Found (n_unique : nat)                    (* Found {n_unique} unique solution(s) *)
| Unique_solution (number : nat)            (* Unique solution {sol_index+1} *)
| Input_total (total : R)                   (* \tInput total: {totals[total_index]} *)
| Constituent (index : nat) (value : R)     (* \t\t{index}: {constituents[index]} *)
| Calculated_total (calc_total : R).        (* \tCalculated total: {calc_total:.2f}\n *)
Arguments Found {R} n_unique.
Arguments Unique_solution {R} number.
Arguments Input_total {R} total.
Arguments Constituent {R} index value.
Arguments Calculated_total {R} calc_total.

Section Printer.
Context {R : Type} `{Number R}.

(** Lines 206-208: the loop over the indices of one subset; [printed] is
    the output so far, kept when [constituents[index]] raises. *)
Fixpoint print_indices (constituents : list R) (indices : SOLUTION)
    (calc_total : R) (printed : list (line R)) : list (line R) * result R :=
  match indices with
  | [] => (printed, Return calc_total)
  | index :: indices' =>
    match constituents !! index with
    | None => (printed, Raise IndexError)
    | Some value =>
      print_indices constituents indices' (add calc_total value)
                    (printed ++ [Constituent index value])
    end
  end.

(** Lines 203-209: the loop over the subsets of one unique solution. *)
Fixpoint print_subsets (constituents totals : list R)
    (unique_sol : list SOLUTION) (total_index : nat)
    (printed : list (line R)) : list (line R) * result () :=
  match unique_sol with
  | [] => (printed, Return ())
  | indices :: unique_sol' =>
    match totals !! total_index with
    | None => (printed, Raise IndexError)
    | Some total =>
      match print_indices constituents indices zero
                          (printed ++ [Input_total total]) with
      | (printed, Raise e) => (printed, Raise e)
      | (printed, Return calc_total) =>
        print_subsets constituents totals unique_sol' (S total_index)
                      (printed ++ [Calculated_total calc_total])
      end
    end
  end.

(** Lines 201-209: the loop over the unique solutions. *)
Fixpoint print_solutions (constituents totals : list R)
    (unique_solutions : list (list SOLUTION)) (sol_index : nat)
    (printed : list (line R)) : list (line R) * result () :=
  match unique_solutions with
  | [] => (printed, Return ())
  | unique_sol :: unique_solutions' =>
    match print_subsets constituents totals unique_sol 0
                        (printed ++ [Unique_solution (sol_index + 1)]) with
    | (printed, Raise e) => (printed, Raise e)
    | (printed, Return _) =>
      print_solutions constituents totals unique_solutions' (S sol_index)
                      printed
    end
  end.

(** [print_unique_solutions(unique_solutions, constituents, totals)]: what
    is written, and whether the call returns. *)
Definition print_unique_solutions (unique_solutions : list (list SOLUTION))
    (constituents totals : list R) : list (line R) * result () :=
  print_solutions constituents totals unique_solutions 0 [].

(** [find_unique_solutions(constituents, totals, tol=..., precision=...,
    show=...)] with what it writes: lines 252-271. *)
Definition find_unique_solutions_show (constituents totals : list R)
    (tol : R) (precision : Z) (show : bool)
    : list (line R) * result (list (list SOLUTION)) :=
  match find_unique_solutions constituents totals tol precision with
  | Raise e => ([], Raise e)
  | Return unique_solutions =>
    let printed := [Found (length unique_solutions)] in
    if show then
      match print_solutions constituents totals unique_solutions 0 printed with
      | (printed, Raise e) => (printed, Raise e)
      | (printed, Return _) => (printed, Return unique_solutions)
      end
    else (printed, Return unique_solutions)
  end.

(** The lines of one subset: its total, its constituents, their sum. *)
Definition subset_lines (constituents : list R) (total : R)
    (indices : SOLUTION) : list (line R) :=
  Input_total total ::
  ((λ index, Constituent index (default zero (constituents !! index)))
     <$> indices) ++
  [Calculated_total (calc_total constituents indices)].

(** The lines of the unique solution number [sol_index + 1]. *)
Definition solution_lines (constituents totals : list R) (sol_index : nat)
    (unique_sol : list SOLUTION) : list (line R) :=
  Unique_solution (sol_index + 1) ::
  concat (zip_with (subset_lines constituents) totals unique_sol).

(** The whole report. *)
Definition report (constituents totals : list R)
    (unique_solutions : list (list SOLUTION)) : list (line R) :=
  concat (imap (solution_lines constituents totals) unique_solutions).

(** Every lookup of the printer is in range: no unique solution has more
    subsets than there are totals, and every index is one of
    [constituents]. *)
Definition printable (constituents totals : list R)
    (unique_solutions : list (list SOLUTION)) : Prop :=
  Forall (λ unique_sol,
            length unique_sol ≤ length totals ∧
            Forall (Forall (λ index, index < length constituents)) unique_sol)
         unique_solutions.

End Printer.

(** ** Properties of the disjoint combiner *)

Lemma overlaps_false used_indices solution :
  overlaps used_indices solution = false →
  Forall (λ i, i ∉ used_indices) solution.
Proof.
  unfold overlaps. induction solution as [|i solution IH]; simpl.
  - constructor.
  - intros [Hi Hrest]%orb_false_iff. constructor; [|by apply IH].
    by apply bool_decide_eq_false in Hi.
Qed.

(** Where a combination of [combine]'s result comes from. *)
Lemma combine_inv n recurse used_indices first all_solutions combinations
    combination :
  combine n recurse used_indices first all_solutions = Return combinations →
  combination ∈ combinations →
  combination ∈ all_solutions ∨
  ∃ solution,
    solution ∈ first ∧ overlaps used_indices solution = false ∧
    ((n = 1 ∧ combination = [solution]) ∨
     (n ≠ 1 ∧ ∃ new_solutions sol,
        recurse (used_indices ∪ list_to_set solution) = Return new_solutions ∧
        sol ∈ new_solutions ∧ combination = solution :: sol)).
Proof.
  revert all_solutions.
  induction first as [|solution first' IH]; intros all_solutions; simpl.
  - intros [= <-] Hin. by left.
  - destruct (overlaps used_indices solution) eqn:Hov.
    { intros Hrun Hin. destruct (IH _ Hrun Hin) as [?|(s & ? & ?)]; [by left|].
      right. exists s. split; [by right|done]. }
    destruct (n =? 1) eqn:Hn.
    { apply Nat.eqb_eq in Hn. intros Hrun Hin.
      destruct (IH _ Hrun Hin) as [Hacc|(s & ? & ?)].
      - apply elem_of_app in Hacc as [?|Hnew]; [by left|].
        apply list_elem_of_singleton in Hnew. right. exists solution.
        split; [by left|]. split; [done|]. by left.
      - right. exists s. split; [by right|done]. }
    apply Nat.eqb_neq in Hn.
    destruct (recurse (used_indices ∪ list_to_set solution))
      as [new_solutions|e] eqn:Hrec; simpl; [|done].
    intros Hrun Hin. destruct (IH _ Hrun Hin) as [Hacc|(s & ? & ?)].
    + apply elem_of_app in Hacc as [?|Hnew]; [by left|].
      apply list_elem_of_fmap in Hnew as (sol & -> & Hsol). right.
      exists solution. split; [by left|]. split; [done|]. right.
      split; [done|]. by exists new_solutions, sol.
    + right. exists s. split; [by right|done].
Qed.

(** [combine] returns as soon as the recursive call does. *)
Lemma combine_returns n recurse used_indices first all_solutions :
  (n ≠ 1 → ∀ used, ∃ new_solutions, recurse used = Return new_solutions) →
  ∃ combinations,
    combine n recurse used_indices first all_solutions = Return combinations.
Proof.
  intros Hrec. revert all_solutions.
  induction first as [|solution first' IH]; intros all_solutions; simpl.
  - by eexists.
  - destruct (overlaps used_indices solution); [apply IH|].
    destruct (n =? 1) eqn:Hn; [apply IH|].
    apply Nat.eqb_neq in Hn.
    destruct (Hrec Hn (used_indices ∪ list_to_set solution)) as [new ->].
    simpl. apply IH.
Qed.

Lemma filter_unique_solutions_returns solutions used_indices :
  solutions ≠ [] →
  ∃ combinations,
    filter_unique_solutions solutions used_indices = Return combinations.
Proof.
  revert used_indices.
  induction solutions as [|first others IH]; intros used_indices Hne; [done|].
  simpl. apply combine_returns. intros Hlen used. apply IH.
  intros ->. by apply Hlen.
Qed.

(** Every combination takes its [i]-th subset from the [i]-th solution
    set, avoids the indices already used and is pairwise disjoint. *)
Lemma filter_unique_solutions_inv solutions used_indices combinations
    combination :
  filter_unique_solutions solutions used_indices = Return combinations →
  combination ∈ combinations →
  Forall2 (λ solution set, solution ∈ set) combination solutions ∧
  avoids used_indices combination ∧
  pairwise_disjoint combination.
Proof.
  revert used_indices combinations combination.
  induction solutions as [|first others IH];
    intros used_indices combinations combination; [done|].
  simpl. intros Hrun Hin.
  destruct (combine_inv _ _ _ _ _ _ _ Hrun Hin)
    as [Hnil|(solution & Hfirst & Hov & Hcase)].
  { by apply elem_of_nil in Hnil. }
  apply overlaps_false in Hov.
  destruct Hcase as [[Hlen ->]|(Hlen & new_solutions & sol & Hrec & Hsol & ->)].
  - destruct others; [|done]. repeat split.
    + by repeat constructor.
    + by repeat constructor.
    + constructor.
  - destruct (IH _ _ _ Hrec Hsol) as (Hshape & Havoid & Hdisj).
    assert (Hother : Forall (λ other, solution ## other) sol).
    { eapply Forall_impl; [exact Havoid|]. intros other Hother i Hi Hi'.
      rewrite Forall_forall in Hother. apply (Hother i Hi').
      apply elem_of_union_r. by apply elem_of_list_to_set. }
    repeat split.
    + by constructor.
    + constructor; [done|]. eapply Forall_impl; [exact Havoid|].
      intros other Hall. eapply Forall_impl; [exact Hall|].
      intros i Hi Hi'. apply Hi. by apply elem_of_union_l.
    + done.
    + done.
Qed.

Lemma disjoint_Forall (l1 l2 : list nat) :
  Forall (λ i, i ∉ l2) l1 → l1 ## l2.
Proof. rewrite Forall_forall. intros Hall i Hi Hi'. by apply (Hall i). Qed.

Lemma pairwise_disjoint_NoDup_concat combination :
  Forall NoDup combination → pairwise_disjoint combination →
  NoDup (concat combination).
Proof.
  induction combination as [|solution others IH]; simpl.
  - intros _ _. constructor.
  - intros [Hnd Hnds]%Forall_cons [Hdisj Hpw]. apply NoDup_app.
    split; [done|]. split; [|by apply IH].
    intros i Hi Hi'. apply list_elem_of_In, in_concat in Hi'.
    destruct Hi' as (other & Hother%list_elem_of_In & Hi'%list_elem_of_In).
    rewrite Forall_forall in Hdisj. by apply (Hdisj other Hother i).
Qed.

(** C10. With no total at all, [filter_unique_solutions] does not return a
    list of combinations: reading [solutions[0]] raises [IndexError]. *)
Theorem filter_unique_solutions_no_totals (used_indices : gset nat) :
  filter_unique_solutions [] used_indices = Raise IndexError.
Proof. reflexivity. Qed.

(** C8. On a non-empty list of solution sets, [filter_unique_solutions]
    returns, every combination has one subset per total, and its [i]-th
    subset is taken from the [i]-th solution set. *)
Theorem filter_unique_solutions_order (solutions : list (list SOLUTION))
    (used_indices : gset nat) :
  solutions ≠ [] →
  ∃ combinations,
    filter_unique_solutions solutions used_indices = Return combinations ∧
    ∀ combination, combination ∈ combinations →
      length combination = length solutions ∧
      ∀ i solution, combination !! i = Some solution →
        ∃ set, solutions !! i = Some set ∧ solution ∈ set.
Proof.
  intros Hne.
  destruct (filter_unique_solutions_returns solutions used_indices Hne)
    as [combinations Hrun].
  exists combinations. split; [done|]. intros combination Hin.
  destruct (filter_unique_solutions_inv _ _ _ _ Hrun Hin) as (Hshape & _ & _).
  split; [by eapply Forall2_length|].
  intros i solution Hi.
  destruct (Forall2_lookup_l _ _ _ _ _ Hshape Hi) as (set & ? & ?).
  by exists set.
Qed.

Lemma filter_unique_solutions_order_witness :
  ∃ combinations,
    filter_unique_solutions [[[0; 1]; [2]]; [[2]; [1; 3]; [3]]] ∅
      = Return combinations ∧
    ∀ combination, combination ∈ combinations →
      length combination = 2 ∧
      ∀ i solution, combination !! i = Some solution →
        ∃ set, [[[0; 1]; [2]]; [[2]; [1; 3]; [3]]] !! i = Some set ∧
               solution ∈ set.
Proof.
  apply (filter_unique_solutions_order [[[0; 1]; [2]]; [[2]; [1; 3]; [3]]] ∅).
  discriminate.
Defined.

(** C6. The per-total subsets of every combination returned by
    [filter_unique_solutions] are pairwise index-disjoint; the solution sets
    holding subsets (no index twice in one of them), the indices of the
    whole combination are free of duplicates. *)
Theorem filter_unique_solutions_disjoint (solutions : list (list SOLUTION))
    (used_indices : gset nat) (combinations : list (list SOLUTION))
    (combination : list SOLUTION) :
  filter_unique_solutions solutions used_indices = Return combinations →
  combination ∈ combinations →
  pairwise_disjoint combination ∧
  (Forall (Forall NoDup) solutions → NoDup (concat combination)).
Proof.
  intros Hrun Hin.
  destruct (filter_unique_solutions_inv _ _ _ _ Hrun Hin)
    as (Hshape & _ & Hdisj).
  split; [done|]. intros Hsets.
  apply pairwise_disjoint_NoDup_concat; [|done].
  clear Hdisj Hrun Hin. induction Hshape as [|solution set ? ? Hsol _ IH].
  - constructor.
  - apply Forall_cons in Hsets as [Hset Hsets]. constructor; [|by apply IH].
    rewrite Forall_forall in Hset. by apply Hset.
Qed.

Lemma filter_unique_solutions_disjoint_witness :
  pairwise_disjoint [[2]; [1; 3]] ∧ NoDup (concat [[2]; [1; 3]]).
Proof.
  destruct (filter_unique_solutions_disjoint
              [[[0; 1]; [2]]; [[2]; [1; 3]; [3]]] ∅
              [[[0; 1]; [2]]; [[0; 1]; [3]]; [[2]; [1; 3]]; [[2]; [3]]]
              [[2]; [1; 3]]) as [Hdisj Hnodup].
  - vm_compute. reflexivity.
  - do 2 right. left.
  - split; [exact Hdisj|]. apply Hnodup.
    apply (bool_decide_unpack _). vm_compute. exact I.
Defined.

(** ** The combiner as an enumeration *)

Lemma overlaps_true_iff used_indices solution :
  overlaps used_indices solution = false ↔
  Forall (λ i, i ∉ used_indices) solution.
Proof.
  split; [apply overlaps_false|].
  unfold overlaps. induction 1 as [|i solution Hi _ IH]; simpl; [done|].
  rewrite IH, orb_false_r. by apply bool_decide_eq_false.
Qed.

(** The loop appends, in the order of [first], what each solution of the
    first total contributes. *)
Lemma combine_choices n recurse (tails : gset nat → list (list SOLUTION))
    used_indices first all_solutions :
  (n = 1 → ∀ used, tails used = [[]]) →
  (n ≠ 1 → ∀ used, recurse used = Return (tails used)) →
  combine n recurse used_indices first all_solutions =
  Return (all_solutions ++
          (solution ← first;
           if overlaps used_indices solution then []
           else (λ sol, solution :: sol) <$>
                  tails (used_indices ∪ list_to_set solution))).
Proof.
  intros Hone Hmore. revert all_solutions.
  induction first as [|solution first' IH]; intros all_solutions; csimpl.
  - by rewrite app_nil_r.
  - destruct (overlaps used_indices solution); [by rewrite IH|].
    destruct (n =? 1) eqn:Hn.
    + apply Nat.eqb_eq in Hn. rewrite IH, (Hone Hn). csimpl.
      by rewrite <-(assoc_L (++)).
    + apply Nat.eqb_neq in Hn. rewrite (Hmore Hn). csimpl.
      by rewrite IH, <-(assoc_L (++)).
Qed.

Lemma filter_unique_solutions_choices solutions used_indices :
  solutions ≠ [] →
  filter_unique_solutions solutions used_indices
    = Return (choices solutions used_indices).
Proof.
  revert used_indices.
  induction solutions as [|first others IH]; intros used_indices Hne; [done|].
  simpl. rewrite (combine_choices _ _ (choices others)).
  - done.
  - intros [= Hlen] used. by apply nil_length_inv in Hlen as ->.
  - intros Hlen used. apply IH. intros ->. by apply Hlen.
Qed.

Lemma choices_elem solutions used_indices combination :
  combination ∈ choices solutions used_indices ↔
  Forall2 (λ solution set, solution ∈ set) combination solutions ∧
  avoids used_indices combination ∧
  pairwise_disjoint combination.
Proof.
  revert used_indices combination.
  induction solutions as [|first others IH]; intros used_indices combination;
    simpl.
  { rewrite list_elem_of_singleton. split.
    - intros ->. by repeat split; constructor.
    - intros (Hshape & _). by apply Forall2_nil_inv_r in Hshape. }
  rewrite list_elem_of_bind. split.
  - intros (solution & Hin & Hfirst).
    destruct (overlaps used_indices solution) eqn:Hov;
      [by apply elem_of_nil in Hin|].
    apply overlaps_false in Hov.
    apply list_elem_of_fmap in Hin as (sol & -> & Hsol).
    apply IH in Hsol as (Hshape & Havoid & Hdisj).
    assert (Forall (λ other, solution ## other) sol) as Hother.
    { eapply Forall_impl; [exact Havoid|]. intros other Hother i Hi Hi'.
      rewrite Forall_forall in Hother. apply (Hother i Hi').
      apply elem_of_union_r. by apply elem_of_list_to_set. }
    repeat split; [by constructor| |done|done].
    constructor; [done|]. eapply Forall_impl; [exact Havoid|].
    intros other Hall. eapply Forall_impl; [exact Hall|].
    intros i Hi Hi'. apply Hi. by apply elem_of_union_l.
  - intros (Hshape & Havoid & Hdisj).
    destruct combination as [|solution sol];
      [by apply Forall2_nil_inv_l in Hshape|].
    apply Forall2_cons_1 in Hshape as [Hfirst Hshape].
    apply Forall_cons in Havoid as [Hsolution Havoid].
    destruct Hdisj as [Hother Hdisj].
    exists solution. split; [|done].
    apply overlaps_true_iff in Hsolution as ->.
    apply list_elem_of_fmap_2, IH. repeat split; [done| |done].
    rewrite Forall_forall in Havoid, Hother. apply Forall_forall.
    intros other Hin. apply Forall_forall. intros i Hi.
    rewrite not_elem_of_union, elem_of_list_to_set. split.
    + specialize (Havoid other Hin). rewrite Forall_forall in Havoid.
      by apply Havoid.
    + intros Hi'. by apply (Hother other Hin i).
Qed.

Lemma choices_NoDup solutions used_indices :
  Forall NoDup solutions → NoDup (choices solutions used_indices).
Proof.
  revert used_indices.
  induction solutions as [|first others IH]; intros used_indices Hsets; simpl.
  { apply NoDup_singleton. }
  apply Forall_cons in Hsets as [Hfirst Hsets].
  apply NoDup_bind; [| |done].
  - intros s1 s2 combination _ _ H1 H2.
    destruct (overlaps used_indices s1); [by apply elem_of_nil in H1|].
    destruct (overlaps used_indices s2); [by apply elem_of_nil in H2|].
    apply list_elem_of_fmap in H1 as (? & -> & _).
    apply list_elem_of_fmap in H2 as (? & [= ->] & _). done.
  - intros solution _. destruct (overlaps used_indices solution);
      [constructor|].
    apply (NoDup_fmap_2 _). by apply IH.
Qed.

Lemma choices_length solutions used_indices :
  length (choices solutions used_indices) ≤
  foldr (λ set bound, length set * bound) 1 solutions.
Proof.
  revert used_indices.
  induction solutions as [|first others IH]; intros used_indices; simpl;
    [done|].
  induction first as [|solution first' IHfirst]; csimpl; [lia|].
  rewrite length_app.
  assert (length (if overlaps used_indices solution then []
                  else (λ sol, solution :: sol) <$>
                         choices others (used_indices ∪ list_to_set solution))
          ≤ foldr (λ set bound, length set * bound) 1 others) as Hhead.
  { destruct (overlaps used_indices solution); simpl; [lia|].
    rewrite length_fmap. apply IH. }
  lia.
Qed.

Lemma choices_empty_set solutions used_indices :
  [] ∈ solutions → choices solutions used_indices = [].
Proof.
  intros Hempty. apply elem_of_nil_inv. intros combination Hin.
  apply choices_elem in Hin as (Hshape & _).
  apply list_elem_of_lookup in Hempty as [i Hi].
  destruct (Forall2_lookup_r _ _ _ _ _ Hshape Hi) as (solution & _ & Hin).
  by apply elem_of_nil in Hin.
Qed.

Lemma filter_unique_solutions_nonempty solutions used_indices combinations :
  filter_unique_solutions solutions used_indices = Return combinations →
  solutions ≠ [].
Proof. by intros Hrun ->. Qed.

(** X1. Completeness of the combiner: a choice of one subset from each
    solution set, in order, whose subsets share no index with one another
    nor with [used_indices], is among the combinations returned. *)
Theorem filter_unique_solutions_complete (solutions : list (list SOLUTION))
    (used_indices : gset nat) (combinations : list (list SOLUTION))
    (combination : list SOLUTION) :
  filter_unique_solutions solutions used_indices = Return combinations →
  Forall2 (λ solution set, solution ∈ set) combination solutions →
  avoids used_indices combination →
  pairwise_disjoint combination →
  combination ∈ combinations.
Proof.
  intros Hrun Hshape Havoid Hdisj.
  rewrite filter_unique_solutions_choices in Hrun
    by by eapply filter_unique_solutions_nonempty.
  injection Hrun as <-. by apply choices_elem.
Qed.

Lemma filter_unique_solutions_complete_witness :
  [[2]; [1; 3]] ∈ [[[0; 1]; [2]]; [[0; 1]; [3]]; [[2]; [1; 3]]; [[2]; [3]]].
Proof.
  apply (filter_unique_solutions_complete
           [[[0; 1]; [2]]; [[2]; [1; 3]; [3]]] ∅).
  - vm_compute. reflexivity.
  - repeat constructor.
  - apply (bool_decide_unpack _). vm_compute. exact I.
  - repeat constructor.
    apply disjoint_Forall, (bool_decide_unpack _). vm_compute. exact I.
Defined.

(** X2. When no solution set lists a subset twice, no combination is
    returned twice. *)
Theorem filter_unique_solutions_NoDup (solutions : list (list SOLUTION))
    (used_indices : gset nat) (combinations : list (list SOLUTION)) :
  Forall NoDup solutions →
  filter_unique_solutions solutions used_indices = Return combinations →
  NoDup combinations.
Proof.
  intros Hsets Hrun.
  rewrite filter_unique_solutions_choices in Hrun
    by by eapply filter_unique_solutions_nonempty.
  injection Hrun as <-. by apply choices_NoDup.
Qed.

Lemma filter_unique_solutions_NoDup_witness :
  NoDup [[[0; 1]; [2]]; [[0; 1]; [3]]; [[2]; [1; 3]]; [[2]; [3]]].
Proof.
  apply (filter_unique_solutions_NoDup
           [[[0; 1]; [2]]; [[2]; [1; 3]; [3]]] ∅).
  - apply (bool_decide_unpack _). vm_compute. exact I.
  - vm_compute. reflexivity.
Defined.

(** X3. A total without any solution leaves no combination at all: when
    one of the solution sets is empty, the empty list is returned. *)
Theorem filter_unique_solutions_empty_set (solutions : list (list SOLUTION))
    (used_indices : gset nat) :
  [] ∈ solutions →
  filter_unique_solutions solutions used_indices = Return [].
Proof.
  intros Hempty.
  rewrite filter_unique_solutions_choices
    by (intros ->; by apply elem_of_nil in Hempty).
  f_equal. by apply choices_empty_set.
Qed.

Lemma filter_unique_solutions_empty_set_witness :
  filter_unique_solutions [[[0; 1]; [2]]; []; [[3]]] ∅ = Return [].
Proof.
  apply (filter_unique_solutions_empty_set [[[0; 1]; [2]]; []; [[3]]] ∅).
  right. left.
Defined.

(** X4. With a single total and no index used yet, every solution of it
    becomes a combination of its own, in the order of the solution set. *)
Theorem filter_unique_solutions_single (first : list SOLUTION) :
  filter_unique_solutions [first] ∅ = Return ((λ solution, [solution]) <$> first).
Proof.
  rewrite filter_unique_solutions_choices by done. f_equal. simpl.
  induction first as [|solution first' IH]; csimpl; [done|].
  rewrite IH. replace (overlaps ∅ solution) with false; [done|].
  symmetry. apply overlaps_true_iff, Forall_forall. intros i _.
  apply not_elem_of_empty.
Qed.

(** X5. There are at most as many combinations as the product of the sizes
    of the solution sets. *)
Theorem filter_unique_solutions_length (solutions : list (list SOLUTION))
    (used_indices : gset nat) (combinations : list (list SOLUTION)) :
  filter_unique_solutions solutions used_indices = Return combinations →
  length combinations ≤ foldr (λ set bound, length set * bound) 1 solutions.
Proof.
  intros Hrun.
  rewrite filter_unique_solutions_choices in Hrun
    by by eapply filter_unique_solutions_nonempty.
  injection Hrun as <-. apply choices_length.
Qed.

Lemma filter_unique_solutions_length_witness :
  length [[[0; 1]; [2]]; [[0; 1]; [3]]; [[2]; [1; 3]]; [[2]; [3]]] ≤ 2 * (3 * 1).
Proof.
  apply (filter_unique_solutions_length
           [[[0; 1]; [2]]; [[2]; [1; 3]; [3]]] ∅).
  vm_compute. reflexivity.
Defined.

(** X6. Result order: the combinations come in the order of the first
    total's solutions.  Splitting the first solution set in two, the result
    is what the first part gives followed by what the second part gives. *)
Theorem filter_unique_solutions_app (first1 first2 : list SOLUTION)
    (others : list (list SOLUTION)) (used_indices : gset nat) :
  ∃ combinations1 combinations2,
    filter_unique_solutions (first1 :: others) used_indices
      = Return combinations1 ∧
    filter_unique_solutions (first2 :: others) used_indices
      = Return combinations2 ∧
    filter_unique_solutions ((first1 ++ first2) :: others) used_indices
      = Return (combinations1 ++ combinations2).
Proof.
  exists (choices (first1 :: others) used_indices),
         (choices (first2 :: others) used_indices).
  rewrite !filter_unique_solutions_choices by done.
  repeat split. f_equal. simpl. apply bind_app.
Qed.

(** X21. [used_indices] is respected: no combination returned holds an
    index of [used_indices]. *)
Theorem filter_unique_solutions_avoids_used
    (solutions : list (list SOLUTION)) (used_indices : gset nat)
    (combinations : list (list SOLUTION)) (combination : list SOLUTION)
    (index : nat) :
  filter_unique_solutions solutions used_indices = Return combinations →
  combination ∈ combinations →
  index ∈ concat combination →
  index ∉ used_indices.
Proof.
  intros Hrun Hin Hindex.
  destruct (filter_unique_solutions_inv _ _ _ _ Hrun Hin) as (_ & Havoid & _).
  apply list_elem_of_In, in_concat in Hindex.
  destruct Hindex as (solution & Hsol%list_elem_of_In & Hi%list_elem_of_In).
  unfold avoids in Havoid. rewrite Forall_forall in Havoid.
  specialize (Havoid solution Hsol). rewrite Forall_forall in Havoid.
  by apply Havoid.
Qed.

Lemma filter_unique_solutions_avoids_used_witness : 2 ∉ ({[ 3 ]} : gset nat).
Proof.
  apply (filter_unique_solutions_avoids_used
           [[[0; 1]; [2]]; [[2]; [1; 3]; [3]]] {[ 3 ]}
           [[[0; 1]; [2]]] [[0; 1]; [2]]).
  - vm_compute. reflexivity.
  - left.
  - simpl. do 2 right. left.
Defined.

(** ** Properties of the search *)

Section SearchFacts.
Context {R : Type} `{Number R}.

Lemma start_index_of_snoc used_indices index :
  start_index_of (used_indices ++ [index]) = S index.
Proof. unfold start_index_of. by rewrite last_snoc. Qed.

(** The recursive call inside the loop is [find_constituents] on the
    extended index list with the default [precision] and [tol]: the loop
    of [search] is the loop of the source. *)
Lemma search_step constituents constituent rest index used_indices total
    precision tol min_remaining all_solutions :
  drop index constituents = constituent :: rest →
  search constituents (constituent :: rest) index used_indices total
         precision tol min_remaining all_solutions =
  let rounded := round constituent precision in
  if gtb rounded (add (add total tol) (absolute min_remaining)) then
    search constituents rest (S index) used_indices total precision tol
           min_remaining all_solutions
  else if mem index used_indices then
    search constituents rest (S index) used_indices total precision tol
           min_remaining all_solutions
  else
    let new_total := sub total rounded in
    if within tol new_total then
      search constituents rest (S index) used_indices total precision tol
             min_remaining
             ({[ sorted (used_indices ++ [index]) ]} ∪ all_solutions)
    else
      solutions ← find_constituents constituents new_total
                    (used_indices ++ [index]) default_precision default_tol;
      search constituents rest (S index) used_indices total precision tol
             min_remaining (all_solutions ∪ solutions).
Proof.
  intros Hdrop. unfold find_constituents.
  rewrite start_index_of_snoc.
  replace (drop (S index) constituents) with rest; [done|].
  replace (S index) with (index + 1) by lia.
  by rewrite <-drop_drop, Hdrop.
Qed.

(** A sorted list of distinct indices is left as it is by [sorted]. *)
Lemma sorted_increasing (l : list nat) : StronglySorted lt l → sorted l = l.
Proof.
  intros Hl. unfold sorted.
  apply (StronglySorted_unique Nat.le).
  - apply StronglySorted_merge_sort; apply _.
  - induction Hl as [|i l _ IH Hi]; constructor; [done|].
    eapply Forall_impl; [exact Hi|]. intros j. apply Nat.lt_le_incl.
  - apply merge_sort_Permutation.
Qed.

Lemma increasing_snoc used_indices index :
  StronglySorted lt used_indices → Forall (λ i, i < index) used_indices →
  StronglySorted lt (used_indices ++ [index]).
Proof.
  intros Hsorted Hbelow. apply StronglySorted_app. split.
  - intros i j Hi ->%list_elem_of_singleton.
    rewrite Forall_forall in Hbelow. by apply Hbelow.
  - split; [done|]. by repeat constructor.
Qed.

Lemma canonical_snoc n used_indices index :
  StronglySorted lt used_indices → Forall (λ i, i < index) used_indices →
  index < n →
  canonical n (sorted (used_indices ++ [index])).
Proof.
  intros Hsorted Hbelow Hn.
  assert (StronglySorted lt (used_indices ++ [index])) as Hsnoc
    by by apply increasing_snoc.
  rewrite (sorted_increasing _ Hsnoc). split; [done|].
  apply Forall_app. split; [|by repeat constructor].
  eapply Forall_impl; [exact Hbelow|]. intros i Hi. simpl in Hi. lia.
Qed.

Lemma search_canonical constituents rest :
  ∀ index used_indices total precision tol min_remaining all_solutions
    solutions,
  search constituents rest index used_indices total precision tol
         min_remaining all_solutions = Return solutions →
  StronglySorted lt used_indices → Forall (λ i, i < index) used_indices →
  index + length rest ≤ length constituents →
  set_Forall (canonical (length constituents)) all_solutions →
  set_Forall (canonical (length constituents)) solutions.
Proof.
  induction rest as [|constituent rest IH];
    intros index used_indices total precision tol min_remaining all_solutions
           solutions; simpl.
  { intros [= <-]. done. }
  intros Hrun Hsorted Hbelow Hlen Hall.
  assert (Hbelow' : Forall (λ i, i < S index) used_indices).
  { eapply Forall_impl; [exact Hbelow|]. intros i Hi. simpl in Hi. lia. }
  assert (Hlen' : S index + length rest ≤ length constituents) by lia.
  destruct (gtb _ _); [by eapply IH|].
  destruct (mem index used_indices); [by eapply IH|].
  destruct (within tol _).
  { eapply IH; [exact Hrun|done..|].
    apply set_Forall_union; [|done]. apply set_Forall_singleton.
    apply canonical_snoc; [done..|lia]. }
  destruct (prologue _ _ _ _) as [tm|e]; simpl in Hrun; [|done].
  destruct (search constituents rest (S index) (used_indices ++ [index])
                   _ _ _ _ ∅) as [inner|e] eqn:Hinner; simpl in Hrun; [|done].
  eapply IH; [exact Hrun|done..|].
  apply set_Forall_union; [done|].
  eapply IH; [exact Hinner| | |done|].
  - by apply increasing_snoc.
  - apply Forall_app. split; [done|]. repeat constructor.
  - apply set_Forall_empty.
Qed.

End SearchFacts.


Section SearchClaims.
Context {R : Type} `{Number R}.

(** C9. Every index-subset returned by a top-level [find_constituents] is
    strictly increasing, so made of distinct indices, all of them in range;
    the returned set lists each subset once, and two returned subsets with
    the same members are one and the same entry. *)
Theorem find_constituents_canonical (constituents : list R) (total : R)
    (precision : Z) (tol : R) (solutions : gset SOLUTION)
    (solution : SOLUTION) :
  find_constituents constituents total [] precision tol = Return solutions →
  solution ∈ solutions →
  StronglySorted lt solution ∧
  NoDup solution ∧
  Forall (λ i, i < length constituents) solution ∧
  NoDup (elements solutions) ∧
  ∀ other, other ∈ solutions → other ≡ₚ solution → other = solution.
Proof.
  unfold find_constituents. intros Hrun Hin.
  destruct (prologue _ _ _ _) as [tm|e]; simpl in Hrun; [|done].
  assert (set_Forall (canonical (length constituents)) solutions) as Hall.
  { eapply search_canonical; [exact Hrun|constructor|constructor| |].
    - simpl. by rewrite drop_0.
    - apply set_Forall_empty. }
  destruct (Hall _ Hin) as [Hsorted Hrange].
  split; [done|]. split.
  { clear -Hsorted. induction Hsorted as [|i l _ IH Hi]; constructor; [|done].
    intros Hin. rewrite Forall_forall in Hi. specialize (Hi i Hin). lia. }
  split; [done|]. split; [apply NoDup_elements|].
  intros other Hother Hperm. destruct (Hall _ Hother) as [Hsorted' _].
  by apply (StronglySorted_unique_strong lt);
    [intros; lia| | |].
Qed.

(** C4. On the empty constituent list there is no minimum to take:
    [find_constituents] raises [ValueError] whatever the total, the
    precision and the tolerance, instead of returning the empty set. *)
Theorem find_constituents_no_constituents (total : R)
    (used_indices : list nat) (precision : Z) (tol : R) :
  find_constituents [] total used_indices precision tol = Raise ValueError.
Proof. reflexivity. Qed.

(** With the default [precision] and [tol] the code is the search as
    specified. *)
Lemma search_default_spec constituents rest :
  ∀ index used_indices total min_remaining all_solutions,
  search constituents rest index used_indices total default_precision
         default_tol min_remaining all_solutions =
  search_spec constituents rest index used_indices total default_precision
              default_tol min_remaining all_solutions.
Proof.
  induction rest as [|constituent rest IH];
    intros index used_indices total min_remaining all_solutions; simpl;
    [done|].
  destruct (gtb _ _); [apply IH|].
  destruct (mem index used_indices); [apply IH|].
  destruct (within default_tol _); [apply IH|].
  destruct (prologue _ _ _ _) as [tm|e]; simpl; [|done].
  rewrite IH.
  destruct (search_spec constituents rest (S index) _ _ _ _ _ ∅); simpl;
    [apply IH|done].
Qed.

Lemma find_constituents_default_spec constituents total used_indices :
  find_constituents constituents total used_indices default_precision
                    default_tol =
  find_constituents_spec constituents total used_indices default_precision
                         default_tol.
Proof.
  unfold find_constituents, find_constituents_spec.
  destruct (prologue _ _ _ _) as [tm|e]; simpl; [|done].
  apply search_default_spec.
Qed.

End SearchClaims.

(** ** What the search returns and raises *)

Section SearchShape.
Context {R : Type} `{Number R}.

(** Where a solution of the loop comes from: it was there before, or it is
    [used_indices] extended by indices the loop still had to visit. *)
Lemma search_extends constituents rest :
  ∀ index used_indices total precision tol min_remaining all_solutions
    solutions solution,
  search constituents rest index used_indices total precision tol
         min_remaining all_solutions = Return solutions →
  solution ∈ solutions →
  solution ∈ all_solutions ∨
  ∃ extra,
    extra ≠ [] ∧ solution = sorted (used_indices ++ extra) ∧
    StronglySorted lt extra ∧
    Forall (λ i, index ≤ i < index + length rest ∧ i ∉ used_indices) extra.
Proof.
  induction rest as [|constituent rest IH];
    intros index used_indices total precision tol min_remaining all_solutions
           solutions solution; simpl.
  { intros [= <-] Hin. by left. }
  assert (∀ extra,
    Forall (λ i, S index ≤ i < S index + length rest ∧ i ∉ used_indices)
           extra →
    Forall (λ i, index ≤ i < index + S (length rest) ∧ i ∉ used_indices)
           extra) as Hweaken.
  { intros extra Hall. eapply Forall_impl; [exact Hall|].
    intros i [? ?]. simpl. split; [lia|done]. }
  intros Hrun Hin.
  destruct (gtb _ _).
  { destruct (IH _ _ _ _ _ _ _ _ _ Hrun Hin)
      as [?|(extra & ? & ? & ? & ?)]; [by left|].
    right. exists extra. eauto. }
  destruct (mem index used_indices) eqn:Hmem.
  { destruct (IH _ _ _ _ _ _ _ _ _ Hrun Hin)
      as [?|(extra & ? & ? & ? & ?)]; [by left|].
    right. exists extra. eauto. }
  apply bool_decide_eq_false in Hmem.
  destruct (within tol _).
  { destruct (IH _ _ _ _ _ _ _ _ _ Hrun Hin)
      as [Hacc|(extra & ? & ? & ? & ?)]; [|right; exists extra; eauto].
    apply elem_of_union in Hacc as [->%elem_of_singleton|?]; [|by left].
    right. exists [index]. split; [done|]. split; [done|].
    split; [by repeat constructor|]. repeat constructor; [lia|done]. }
  destruct (prologue _ _ _ _) as [tm|e]; simpl in Hrun; [|done].
  destruct (search constituents rest (S index) (used_indices ++ [index])
                   _ _ _ _ ∅) as [inner|e] eqn:Hinner; simpl in Hrun; [|done].
  destruct (IH _ _ _ _ _ _ _ _ _ Hrun Hin)
    as [Hacc|(extra & ? & ? & ? & ?)]; [|right; exists extra; eauto].
  apply elem_of_union in Hacc as [?|Hacc]; [by left|].
  destruct (IH _ _ _ _ _ _ _ _ _ Hinner Hacc)
    as [Hempty|(extra & _ & -> & Hsorted & Hextra)];
    [by apply not_elem_of_empty in Hempty|].
  right. exists (index :: extra). split; [done|].
  split; [by rewrite <-(assoc_L (++))|].
  split.
  - constructor; [done|]. eapply Forall_impl; [exact Hextra|].
    intros i [? _]. simpl. lia.
  - constructor; [split; [lia|done]|].
    eapply Forall_impl; [exact Hextra|]. intros i [? Hnot]. simpl.
    split; [lia|]. intros Hi. apply Hnot, elem_of_app. by left.
Qed.

(** The loop raises nothing but the [ValueError] of [min]. *)
Lemma search_raises constituents rest :
  ∀ index used_indices total precision tol min_remaining all_solutions e,
  search constituents rest index used_indices total precision tol
         min_remaining all_solutions = Raise e →
  e = ValueError.
Proof.
  induction rest as [|constituent rest IH];
    intros index used_indices total precision tol min_remaining all_solutions
           e; simpl; [done|].
  intros Hrun.
  destruct (gtb _ _); [by eapply IH|].
  destruct (mem index used_indices); [by eapply IH|].
  destruct (within tol _); [by eapply IH|].
  unfold prologue in Hrun.
  destruct (min_list _) as [minimum|e'] eqn:Hmin; simpl in Hrun.
  - destruct (search constituents rest (S index) (used_indices ++ [index])
                     _ _ _ _ ∅) as [inner|e'] eqn:Hinner; simpl in Hrun.
    + by eapply IH.
    + injection Hrun as <-. by eapply IH.
  - injection Hrun as <-. unfold min_list in Hmin.
    destruct (unused _ _); by simplify_eq.
Qed.

Lemma find_constituents_raises constituents total used_indices precision
    tol e :
  find_constituents constituents total used_indices precision tol = Raise e →
  e = ValueError.
Proof.
  unfold find_constituents, prologue. intros Hrun.
  destruct (min_list _) as [minimum|e'] eqn:Hmin; simpl in Hrun.
  - by eapply search_raises.
  - injection Hrun as <-. unfold min_list in Hmin.
    destruct (unused _ _); by simplify_eq.
Qed.

Lemma find_constituents_set_canonical constituents total precision tol
    solutions :
  find_constituents constituents total [] precision tol = Return solutions →
  set_Forall (canonical (length constituents)) solutions.
Proof.
  unfold find_constituents. intros Hrun.
  destruct (prologue _ _ _ _) as [tm|e]; simpl in Hrun; [|done].
  eapply search_canonical; [exact Hrun|constructor|constructor| |].
  - simpl. by rewrite drop_0.
  - apply set_Forall_empty.
Qed.

(** X7. Every solution returned by [find_constituents] is the sorted tuple
    of [used_indices] together with at least one more index; the added
    indices are distinct, lie after the last used index, inside the list,
    and none of them is in [used_indices]. *)
Theorem find_constituents_extends_used (constituents : list R) (total : R)
    (used_indices : list nat) (precision : Z) (tol : R)
    (solutions : gset SOLUTION) (solution : SOLUTION) :
  find_constituents constituents total used_indices precision tol
    = Return solutions →
  solution ∈ solutions →
  ∃ extra,
    extra ≠ [] ∧ solution = sorted (used_indices ++ extra) ∧
    StronglySorted lt extra ∧
    Forall (λ i, start_index_of used_indices ≤ i < length constituents ∧
                 i ∉ used_indices) extra.
Proof.
  unfold find_constituents. intros Hrun Hin.
  destruct (prologue _ _ _ _) as [tm|e]; simpl in Hrun; [|done].
  destruct (search_extends _ _ _ _ _ _ _ _ _ _ _ Hrun Hin)
    as [Hempty|(extra & ? & ? & ? & Hextra)];
    [by apply not_elem_of_empty in Hempty|].
  exists extra. repeat split; [done..|].
  eapply Forall_impl; [exact Hextra|]. intros i [[? Hi] ?].
  rewrite length_drop in Hi. split; [lia|done].
Qed.

(** X8. The empty subset is never returned, whatever the total (a total
    within [tol] of zero included): every solution holds an index. *)
Theorem find_constituents_never_empty (constituents : list R) (total : R)
    (used_indices : list nat) (precision : Z) (tol : R)
    (solutions : gset SOLUTION) :
  find_constituents constituents total used_indices precision tol
    = Return solutions →
  [] ∉ solutions.
Proof.
  unfold find_constituents. intros Hrun Hin.
  destruct (prologue _ _ _ _) as [tm|e]; simpl in Hrun; [|done].
  destruct (search_extends _ _ _ _ _ _ _ _ _ _ _ Hrun Hin)
    as [Hempty|(extra & Hne & Hsorted & _)];
    [by apply not_elem_of_empty in Hempty|].
  assert (sorted (used_indices ++ extra) ≡ₚ used_indices ++ extra) as Hperm
    by apply merge_sort_Permutation.
  rewrite <-Hsorted in Hperm. apply Permutation_nil_l in Hperm.
  symmetry in Hperm. by apply app_nil in Hperm as [_ ->].
Qed.

End SearchShape.

(** ** The driver *)

Section DriverFacts.
Context {R : Type} `{Number R}.

Lemma mapM_Return {A B} (f : A → result B) (l : list A) (ys : list B) :
  mapM f l = Return ys ↔ Forall2 (λ x y, f x = Return y) l ys.
Proof.
  revert ys. induction l as [|x l IH]; intros ys; simpl.
  - split; [intros [= <-]; constructor|].
    intros ->%Forall2_nil_inv_l. done.
  - split.
    + intros Hrun. destruct (f x) as [y|e] eqn:Hx; simpl in Hrun; [|done].
      destruct (mapM f l) as [k|e] eqn:Hl; simpl in Hrun; [|done].
      injection Hrun as <-. constructor; [done|]. by apply IH.
    + intros (y & k & Hy & Hk & ->)%Forall2_cons_inv_l.
      rewrite Hy. simpl. apply IH in Hk. by rewrite Hk.
Qed.

Lemma mapM_Raise {A B} (f : A → result B) (l : list A) (e : exception) :
  mapM f l = Raise e → ∃ x, x ∈ l ∧ f x = Raise e.
Proof.
  induction l as [|x l IH]; simpl; [done|].
  intros Hrun. destruct (f x) as [y|e'] eqn:Hx; simpl in Hrun.
  - destruct (mapM f l) as [k|e'] eqn:Hl; simpl in Hrun; [done|].
    injection Hrun as <-. destruct IH as (x' & ? & ?); [done|].
    exists x'. split; [by right|done].
  - injection Hrun as <-. exists x. split; [by left|done].
Qed.

Lemma mapM_Raise_elem {A B} (f : A → result B) (l : list A) (x : A)
    (e : exception) :
  x ∈ l → f x = Raise e → ∃ e', mapM f l = Raise e'.
Proof.
  induction l as [|x' l IH]; [by intros ?%elem_of_nil|].
  intros [->|Hin]%elem_of_cons Hx; simpl.
  - rewrite Hx. by eexists.
  - destruct (f x') as [y|e']; simpl; [|by eexists].
    destruct (IH Hin Hx) as [e' ->]. by eexists.
Qed.

Lemma increasing_NoDup (l : list nat) : StronglySorted lt l → NoDup l.
Proof.
  induction 1 as [|i l _ IH Hi]; constructor; [|done].
  intros Hin. rewrite Forall_forall in Hi. specialize (Hi i Hin). lia.
Qed.

Lemma NoDup_below_length (n : nat) (l : list nat) :
  NoDup l → Forall (λ i, i < n) l → length l ≤ n.
Proof.
  intros Hnodup Hbelow. rewrite <-(length_seq n 0).
  apply submseteq_length, NoDup_submseteq; [done|].
  intros i Hi. rewrite Forall_forall in Hbelow.
  apply elem_of_seq. specialize (Hbelow i Hi). lia.
Qed.

(** X9. How [find_unique_solutions] fails: it raises [IndexError] exactly
    when there is no total at all, and [ValueError] exactly when
    [find_constituents] raises it for one of the totals; it raises nothing
    else. *)
Theorem find_unique_solutions_raises (constituents totals : list R)
    (tol : R) (precision : Z) (e : exception) :
  find_unique_solutions constituents totals tol precision = Raise e ↔
  (totals = [] ∧ e = IndexError) ∨
  (e = ValueError ∧
   ∃ total, total ∈ totals ∧
     find_constituents constituents total [] precision tol
       = Raise ValueError).
Proof.
  unfold find_unique_solutions. split.
  - intros Hrun.
    destruct (mapM _ totals) as [all_solutions|e'] eqn:Hsearch;
      simpl in Hrun.
    + left. apply mapM_Return in Hsearch.
      destruct totals as [|total totals].
      * apply Forall2_nil_inv_l in Hsearch as ->. simpl in Hrun.
        by injection Hrun as <-.
      * apply Forall2_cons_inv_l in Hsearch as (set & sets & _ & _ & ->).
        destruct (filter_unique_solutions_returns
                    (elements <$> set :: sets) ∅) as [combinations Hok];
          [done|].
        by rewrite Hok in Hrun.
    + right. injection Hrun as <-.
      apply mapM_Raise in Hsearch as (total & Hin & Hraise).
      pose proof (find_constituents_raises _ _ _ _ _ _ Hraise) as ->.
      split; [done|]. by exists total.
  - intros [[-> ->]|[-> (total & Hin & Hraise)]]; [done|].
    destruct (mapM_Raise_elem
                (λ total, find_constituents constituents total [] precision
                                            tol)
                _ _ _ Hin Hraise) as [e' Hsearch].
    rewrite Hsearch. simpl. f_equal.
    apply mapM_Raise in Hsearch as (total' & _ & Hraise').
    by eapply find_constituents_raises.
Qed.

(** X10. Every combination returned by [find_unique_solutions] has one
    subset per total; each subset is a strictly increasing tuple of indices
    into the constituents; no index is used twice in the whole combination,
    which so uses at most as many indices as there are constituents. *)
Theorem find_unique_solutions_structure (constituents totals : list R)
    (tol : R) (precision : Z) (combinations : list (list SOLUTION))
    (combination : list SOLUTION) :
  find_unique_solutions constituents totals tol precision
    = Return combinations →
  combination ∈ combinations →
  length combination = length totals ∧
  Forall (canonical (length constituents)) combination ∧
  pairwise_disjoint combination ∧
  NoDup (concat combination) ∧
  length (concat combination) ≤ length constituents.
Proof.
  unfold find_unique_solutions. intros Hrun Hin.
  destruct (mapM _ totals) as [all_solutions|e] eqn:Hsearch;
    simpl in Hrun; [|done].
  apply mapM_Return in Hsearch.
  destruct (filter_unique_solutions_inv _ _ _ _ Hrun Hin)
    as (Hshape & _ & Hdisj).
  assert (Forall (canonical (length constituents)) combination) as Hcanon.
  { rewrite Forall2_fmap_r in Hshape. clear Hrun Hin Hdisj.
    revert totals Hsearch.
    induction Hshape as [|solution set ? ? Hsol _ IH]; intros totals Hsearch;
      [constructor|].
    apply Forall2_cons_inv_r in Hsearch as (total & ? & Hset & Hsets & ->).
    constructor; [|by eapply IH].
    apply find_constituents_set_canonical in Hset.
    by apply Hset, elem_of_elements. }
  assert (NoDup (concat combination)) as Hnodup.
  { apply pairwise_disjoint_NoDup_concat; [|done].
    eapply Forall_impl; [exact Hcanon|].
    intros solution [? _]. by apply increasing_NoDup. }
  split.
  { apply Forall2_length in Hshape, Hsearch.
    rewrite length_fmap in Hshape. congruence. }
  repeat split; [done..|].
  apply NoDup_below_length; [done|].
  clear -Hcanon. induction Hcanon as [|solution ? [_ ?] _ IH]; simpl;
    [constructor|]. by apply Forall_app.
Qed.

(** X11. If every total's search returns and one of them finds nothing,
    [find_unique_solutions] returns no combination. *)
Theorem find_unique_solutions_unsatisfiable (constituents totals : list R)
    (tol : R) (precision : Z) (total : R) :
  (∀ total', total' ∈ totals →
     ∃ solutions,
       find_constituents constituents total' [] precision tol
         = Return solutions) →
  total ∈ totals →
  find_constituents constituents total [] precision tol = Return ∅ →
  find_unique_solutions constituents totals tol precision = Return [].
Proof.
  unfold find_unique_solutions. intros Hall Hin Hnone.
  destruct (mapM _ totals) as [all_solutions|e] eqn:Hsearch; simpl.
  - apply mapM_Return in Hsearch.
    assert ([] ∈ elements <$> all_solutions) as Hempty.
    { apply list_elem_of_lookup in Hin as [i Hi].
      destruct (Forall2_lookup_l _ _ _ _ _ Hsearch Hi) as (set & Hset & Hrun).
      rewrite Hnone in Hrun. injection Hrun as <-.
      apply list_elem_of_lookup. exists i.
      by rewrite list_lookup_fmap, Hset. }
    rewrite filter_unique_solutions_choices
      by (intros Hnil; rewrite Hnil in Hempty; by apply elem_of_nil in Hempty).
    f_equal. by apply choices_empty_set.
  - apply mapM_Raise in Hsearch as (total' & Hin' & Hraise).
    destruct (Hall total' Hin') as [? Hok]. by rewrite Hok in Hraise.
Qed.

End DriverFacts.

(** ** The printer *)

Section PrinterFacts.
Context {R : Type} `{Number R}.

Lemma print_indices_spec (constituents : list R) (indices : SOLUTION) :
  ∀ (calc : R) (printed : list (line R)),
  (Forall (λ index, index < length constituents) indices ∧
   print_indices constituents indices calc printed =
     (printed ++ ((λ index, Constituent index
                              (default zero (constituents !! index)))
                    <$> indices),
      Return (fold_left (λ calc index,
                           add calc (default zero (constituents !! index)))
                        indices calc))) ∨
  (¬ Forall (λ index, index < length constituents) indices ∧
   (print_indices constituents indices calc printed).2 = Raise IndexError).
Proof.
  induction indices as [|index indices IH]; intros calc printed; simpl.
  { left. split; [constructor|]. by rewrite app_nil_r. }
  destruct (constituents !! index) as [value|] eqn:Hvalue.
  - apply lookup_lt_Some in Hvalue as Hlt.
    destruct (IH (add calc value) (printed ++ [Constituent index value]))
      as [[Hall ->]|[Hnot ->]].
    + left. split; [by constructor|]. by rewrite <-(assoc_L (++)).
    + right. split; [|done]. by intros [_ ?]%Forall_cons.
  - right. split; [|done]. apply lookup_ge_None in Hvalue.
    intros [? _]%Forall_cons. lia.
Qed.

Lemma print_subsets_spec (constituents totals : list R)
    (unique_sol : list SOLUTION) :
  ∀ (total_index : nat) (printed : list (line R)),
  let in_range :=
    (unique_sol = [] ∨ total_index + length unique_sol ≤ length totals) ∧
    Forall (Forall (λ index, index < length constituents)) unique_sol in
  (in_range ∧
   print_subsets constituents totals unique_sol total_index printed =
     (printed ++ concat (zip_with (subset_lines constituents)
                                  (drop total_index totals) unique_sol),
      Return ())) ∨
  (¬ in_range ∧
   (print_subsets constituents totals unique_sol total_index printed).2
     = Raise IndexError).
Proof.
  induction unique_sol as [|indices unique_sol IH];
    intros total_index printed; simpl.
  { left. split; [split; [by left|constructor]|].
    destruct (drop total_index totals); simpl; by rewrite app_nil_r. }
  destruct (totals !! total_index) as [total|] eqn:Htotal.
  - apply lookup_lt_Some in Htotal as Hlt.
    rewrite (drop_S _ _ _ Htotal). simpl.
    destruct (print_indices_spec constituents indices zero
                (printed ++ [Input_total total])) as [[Hall ->]|[Hnot Hfail]].
    + destruct (IH (S total_index)
                   (((printed ++ [Input_total total]) ++
                     ((λ index, Constituent index
                                  (default zero (constituents !! index)))
                        <$> indices)) ++
                    [Calculated_total
                       (fold_left (λ calc index,
                          add calc (default zero (constituents !! index)))
                          indices zero)]))
        as [[[Hlen Hrange] ->]|[Hnot ->]].
      * left. split.
        { split; [right; destruct Hlen as [->|?]; simpl; lia|].
          by constructor. }
        f_equal. unfold subset_lines, calc_total.
        rewrite <-!(assoc_L (++)). simpl. by rewrite <-?(assoc_L (++)).
      * right. split; [|done]. intros [Hlen [_ ?]%Forall_cons].
        apply Hnot. split; [|done]. right.
        destruct Hlen as [?|?]; [done|]. simpl in *. lia.
    + right. split; [by intros [_ [? _]%Forall_cons]|].
      destruct (print_indices _ _ _ _) as [? [?|?]]; simpl in *; [done|].
      by simplify_eq.
  - right. split; [|done]. apply lookup_ge_None in Htotal.
    intros [[?|?] _]; [done|]. simpl in *. lia.
Qed.

Lemma print_solutions_spec (constituents totals : list R)
    (unique_solutions : list (list SOLUTION)) :
  ∀ (sol_index : nat) (printed : list (line R)),
  (printable constituents totals unique_solutions ∧
   print_solutions constituents totals unique_solutions sol_index printed =
     (printed ++
      concat (imap (λ i, solution_lines constituents totals (sol_index + i))
                   unique_solutions),
      Return ())) ∨
  (¬ printable constituents totals unique_solutions ∧
   (print_solutions constituents totals unique_solutions sol_index printed).2
     = Raise IndexError).
Proof.
  unfold printable.
  induction unique_solutions as [|unique_sol unique_solutions IH];
    intros sol_index printed; simpl.
  { left. split; [constructor|]. by rewrite app_nil_r. }
  destruct (print_subsets_spec constituents totals unique_sol 0
              (printed ++ [Unique_solution (sol_index + 1)]))
    as [[[Hlen Hrange] ->]|[Hnot Hfail]].
  - destruct (IH (S sol_index)
                 ((printed ++ [Unique_solution (sol_index + 1)]) ++
                  concat (zip_with (subset_lines constituents)
                                   (drop 0 totals) unique_sol)))
      as [[Hall ->]|[Hnot ->]].
    + left. split.
      { constructor; [|done]. split; [|done].
        destruct Hlen as [->|?]; simpl in *; [lia|done]. }
      f_equal. rewrite drop_0, Nat.add_0_r.
      assert (imap (λ i, solution_lines constituents totals
                                        (S sol_index + i)) unique_solutions =
              imap ((λ i, solution_lines constituents totals (sol_index + i))
                    ∘ S) unique_solutions) as ->.
      { apply imap_ext. intros i ? _. simpl. f_equal. lia. }
      unfold solution_lines at 2. by rewrite <-!(assoc_L (++)).
    + right. split; [|done]. by intros [_ ?]%Forall_cons.
  - right. split.
    + intros [[? ?] _]%Forall_cons. apply Hnot. split; [|done]. by right.
    + destruct (print_subsets _ _ _ _ _) as [? [?|?]]; simpl in *; [done|].
      by simplify_eq.
Qed.

(** X12. [print_unique_solutions] returns if and only if no unique
    solution has more subsets than there are totals and every index lies
    inside [constituents]; otherwise it stops with [IndexError]. *)
Theorem print_unique_solutions_returns (constituents totals : list R)
    (unique_solutions : list (list SOLUTION)) :
  ((print_unique_solutions unique_solutions constituents totals).2
     = Return () ↔
   printable constituents totals unique_solutions) ∧
  ((print_unique_solutions unique_solutions constituents totals).2
     = Raise IndexError ↔
   ¬ printable constituents totals unique_solutions).
Proof.
  unfold print_unique_solutions.
  destruct (print_solutions_spec constituents totals unique_solutions 0 [])
    as [[Hok ->]|[Hnot ->]]; simpl; split; split; done.
Qed.

(** X13. When it returns, [print_unique_solutions] writes, for each unique
    solution in turn, its number (from 1), and for each of its subsets the
    total of the same position, every index with its constituent, and the
    sum of these constituents added up from 0 in the order of the subset. *)
Theorem print_unique_solutions_report (constituents totals : list R)
    (unique_solutions : list (list SOLUTION)) :
  printable constituents totals unique_solutions →
  print_unique_solutions unique_solutions constituents totals
    = (report constituents totals unique_solutions, Return ()).
Proof.
  intros Hok. unfold print_unique_solutions, report.
  destruct (print_solutions_spec constituents totals unique_solutions 0 [])
    as [[_ ->]|[Hnot _]]; [done|]. by destruct Hnot.
Qed.

(** X14. Printing never makes [find_unique_solutions] fail: with [show]
    set or not, the call returns or raises exactly as the search and the
    combiner do, every lookup of the printer being in range. *)
Theorem find_unique_solutions_show_result (constituents totals : list R)
    (tol : R) (precision : Z) (show : bool) :
  (find_unique_solutions_show constituents totals tol precision show).2
    = find_unique_solutions constituents totals tol precision.
Proof.
  unfold find_unique_solutions_show.
  destruct (find_unique_solutions constituents totals tol precision)
    as [unique_solutions|e] eqn:Hrun; [|done].
  destruct show; [|done].
  destruct (print_solutions_spec constituents totals unique_solutions 0
              [Found (length unique_solutions)]) as [[_ ->]|[Hnot _]]; [done|].
  destruct Hnot. apply Forall_forall. intros unique_sol Hin.
  unfold find_unique_solutions in Hrun.
  destruct (mapM _ totals) as [all_solutions|e] eqn:Hsearch;
    simpl in Hrun; [|done].
  apply mapM_Return in Hsearch.
  destruct (filter_unique_solutions_inv _ _ _ _ Hrun Hin) as (Hshape & _ & _).
  split.
  { apply Forall2_length in Hshape, Hsearch.
    rewrite length_fmap in Hshape. unfold SOLUTION in *. lia. }
  rewrite Forall2_fmap_r in Hshape. clear Hrun Hin.
  revert totals Hsearch.
  induction Hshape as [|solution set ? ? Hsol _ IH]; intros totals Hsearch;
    [constructor|].
  apply Forall2_cons_inv_r in Hsearch as (total & ? & Hset & Hsets & ->).
  constructor; [|by eapply IH].
  apply find_constituents_set_canonical in Hset.
  by apply Hset, elem_of_elements.
Qed.

End PrinterFacts.

(** ** The loop only adds solutions *)

Section SearchGrows.
Context {R : Type} `{Number R}.

Lemma search_mono constituents rest :
  ∀ index used_indices total precision tol min_remaining all_solutions
    solutions,
  search constituents rest index used_indices total precision tol
         min_remaining all_solutions = Return solutions →
  all_solutions ⊆ solutions.
Proof.
  induction rest as [|constituent rest IH];
    intros index used_indices total precision tol min_remaining all_solutions
           solutions; simpl.
  { by intros [= <-]. }
  intros Hrun.
  destruct (gtb _ _); [by eapply IH|].
  destruct (mem index used_indices); [by eapply IH|].
  destruct (within tol _).
  { apply IH in Hrun. set_solver. }
  destruct (prologue _ _ _ _) as [tm|e]; simpl in Hrun; [|done].
  destruct (search constituents rest (S index) (used_indices ++ [index])
                   _ _ _ _ ∅) as [inner|e]; simpl in Hrun; [|done].
  apply IH in Hrun. set_solver.
Qed.

(** A constituent the loop reaches, that is neither above the bound nor
    used and that meets the remaining target, is recorded. *)
Lemma search_records constituents rest :
  ∀ index used_indices total precision tol min_remaining all_solutions
    solutions offset constituent,
  search constituents rest index used_indices total precision tol
         min_remaining all_solutions = Return solutions →
  rest !! offset = Some constituent →
  gtb (round constituent precision)
      (add (add total tol) (absolute min_remaining)) = false →
  mem (index + offset) used_indices = false →
  within tol (sub total (round constituent precision)) = true →
  sorted (used_indices ++ [index + offset]) ∈ solutions.
Proof.
  induction rest as [|first rest IH];
    intros index used_indices total precision tol min_remaining all_solutions
           solutions offset constituent; [done|].
  destruct offset as [|offset].
  - simpl. intros Hrun [= ->] Hbound Hmem Hwithin.
    rewrite Nat.add_0_r in *. rewrite Hbound, Hmem, Hwithin in Hrun.
    apply search_mono in Hrun. set_solver.
  - intros Hrun Hlookup Hbound Hmem Hwithin.
    replace (index + S offset) with (S index + offset) in * by lia.
    simpl in Hrun, Hlookup.
    destruct (gtb _ _); [by eapply IH|].
    destruct (mem index used_indices); [by eapply IH|].
    destruct (within tol (sub total (round first precision)));
      [by eapply IH|].
    destruct (prologue _ _ _ _) as [tm|e]; simpl in Hrun; [|done].
    destruct (search constituents rest (S index) (used_indices ++ [index])
                     _ _ _ _ ∅) as [inner|e]; simpl in Hrun; [|done].
    by eapply IH.
Qed.

(** A constituent the loop reaches, that is neither above the bound nor
    used and that does not meet the remaining target, is descended into, and
    what the recursive call finds is kept. *)
Lemma search_descends constituents rest :
  ∀ index used_indices total precision tol min_remaining all_solutions
    solutions offset constituent,
  search constituents rest index used_indices total precision tol
         min_remaining all_solutions = Return solutions →
  rest !! offset = Some constituent →
  gtb (round constituent precision)
      (add (add total tol) (absolute min_remaining)) = false →
  mem (index + offset) used_indices = false →
  within tol (sub total (round constituent precision)) = false →
  ∃ tm inner,
    prologue constituents (sub total (round constituent precision))
             (used_indices ++ [index + offset]) default_precision
      = Return tm ∧
    search constituents (drop (S offset) rest) (S (index + offset))
           (used_indices ++ [index + offset]) tm.1 default_precision
           default_tol tm.2 ∅ = Return inner ∧
    inner ⊆ solutions.
Proof.
  induction rest as [|first rest IH];
    intros index used_indices total precision tol min_remaining all_solutions
           solutions offset constituent; [done|].
  destruct offset as [|offset].
  - simpl. intros Hrun [= ->] Hbound Hmem Hwithin.
    rewrite Nat.add_0_r in *. rewrite Hbound, Hmem, Hwithin in Hrun.
    destruct (prologue _ _ _ _) as [tm|e]; simpl in Hrun; [|done].
    destruct (search constituents rest (S index) (used_indices ++ [index])
                     _ _ _ _ ∅) as [inner|e] eqn:Hinner;
      simpl in Hrun; [|done].
    exists tm, inner. rewrite drop_0. split; [done|]. split; [done|].
    apply search_mono in Hrun. set_solver.
  - intros Hrun Hlookup Hbound Hmem Hwithin.
    replace (index + S offset) with (S index + offset) in * by lia.
    simpl in Hrun, Hlookup. simpl drop.
    destruct (gtb _ _); [by eapply IH|].
    destruct (mem index used_indices); [by eapply IH|].
    destruct (within tol (sub total (round first precision)));
      [by eapply IH|].
    destruct (prologue _ _ _ _) as [tm|e]; simpl in Hrun; [|done].
    destruct (search constituents rest (S index) (used_indices ++ [index])
                     _ _ _ _ ∅) as [inner|e]; simpl in Hrun; [|done].
    by eapply IH.
Qed.

(** The constituents not yet used are constituents. *)
Lemma unused_elem (constituents : list R) (used_indices : list nat) (c : R) :
  c ∈ unused constituents used_indices → c ∈ constituents.
Proof.
  unfold unused. intros ([i c'] & -> & Hin)%list_elem_of_fmap.
  apply list_elem_of_filter in Hin as [_ Hin].
  apply list_elem_of_lookup in Hin as [j Hj].
  rewrite list_lookup_imap in Hj.
  destruct (constituents !! j) as [c''|] eqn:Hc; simplify_eq/=.
  by eapply list_elem_of_lookup_2.
Qed.

(** Once the indices [0 .. k-1] are used, the constituents left are those
    from [k] on. *)
Lemma unused_seq (constituents : list R) (k : nat) :
  unused constituents (seq 0 k) = drop k constituents.
Proof.
  unfold unused.
  assert (∀ offset,
    (filter (λ ic : nat * R, negb (mem ic.1 (seq 0 k)))
            (imap (λ i c, (offset + i, c)) constituents)).*2
    = drop (k - offset) constituents) as Hshift.
  { induction constituents as [|c constituents IH]; intros offset.
    { by rewrite drop_nil. }
    specialize (IH (S offset)).
    assert (imap (λ i c, (offset + i, c)) (c :: constituents) =
            (offset, c) :: imap (λ i c, (S offset + i, c)) constituents)
      as ->.
    { simpl. rewrite Nat.add_0_r. f_equal. apply imap_ext.
      intros i ? _. simpl. f_equal. lia. }
    rewrite filter_cons.
    destruct (decide (offset < k)) as [Hlt|Hge].
    - rewrite decide_False.
      + rewrite IH. by replace (k - offset) with (S (k - S offset)) by lia.
      + cbn [fst]. unfold mem. rewrite bool_decide_eq_true_2; [by intros ?|].
        apply elem_of_seq. lia.
    - rewrite decide_True.
      + rewrite fmap_cons, IH. cbn [snd]. replace (k - offset) with 0 by lia.
        replace (k - S offset) with 0 by lia. by rewrite !drop_0.
      + cbn [fst]. unfold mem. rewrite bool_decide_eq_false_2; [done|].
        rewrite elem_of_seq. lia. }
  specialize (Hshift 0). rewrite Nat.sub_0_r in Hshift. by rewrite <-Hshift.
Qed.

End SearchGrows.

(** ** Soundness of the specified search on exact rationals *)

Section Exact.
Local Open Scope Q_scope.

Lemma scale_pos (ndigits : Z) : 0 < Qpower (10 # 1) ndigits.
Proof. by apply Qpower_0_lt. Qed.

Lemma scale_nonzero (ndigits : Z) : ¬ Qpower (10 # 1) ndigits == 0.
Proof.
  intros Hz. pose proof (scale_pos ndigits) as Hpos.
  rewrite Hz in Hpos. by apply Qlt_irrefl in Hpos.
Qed.

Lemma round_half_even_integer (q : Q) (z : Z) :
  q == inject_Z z → round_half_even q = z.
Proof.
  intros Hq. unfold round_half_even.
  rewrite (Qfloor_comp _ _ Hq), Qfloor_Z.
  assert (q - inject_Z z == 0) as Hzero by (rewrite Hq; ring).
  by rewrite (Qcompare_comp _ _ Hzero _ _ (Qeq_refl (1 # 2))).
Qed.

Lemma decimal_round (q : Q) (ndigits : Z) :
  decimal ndigits (Qround_digits q ndigits).
Proof. eexists. unfold Qround_digits. apply Qred_correct. Qed.

Lemma round_decimal (q : Q) (ndigits : Z) :
  decimal ndigits q → Qround_digits q ndigits == q.
Proof.
  intros [z Hz]. unfold Qround_digits. rewrite Qred_correct.
  rewrite (round_half_even_integer _ z); [by symmetry|].
  rewrite Hz. field. apply scale_nonzero.
Qed.

Lemma decimal_proper (ndigits : Z) (q q' : Q) :
  q == q' → decimal ndigits q → decimal ndigits q'.
Proof. intros Heq [z Hz]. exists z. by rewrite <-Heq. Qed.

Lemma decimal_zero (ndigits : Z) : decimal ndigits 0.
Proof. exists 0%Z. field. apply scale_nonzero. Qed.

Lemma decimal_plus (ndigits : Z) (a b : Q) :
  decimal ndigits a → decimal ndigits b → decimal ndigits (a + b).
Proof.
  intros [za Ha] [zb Hb]. exists (za + zb)%Z.
  rewrite Ha, Hb, inject_Z_plus. field. apply scale_nonzero.
Qed.

Lemma decimal_minus (ndigits : Z) (a b : Q) :
  decimal ndigits a → decimal ndigits b → decimal ndigits (a - b).
Proof.
  intros [za Ha] [zb Hb]. exists (za - zb)%Z.
  unfold Z.sub. rewrite Ha, Hb, inject_Z_plus, inject_Z_opp. field.
  apply scale_nonzero.
Qed.

Lemma calc_total_snoc (constituents : list Q) (indices : SOLUTION)
    (index : nat) :
  calc_total constituents (indices ++ [index]) =
  calc_total constituents indices + default 0 (constituents !! index).
Proof. unfold calc_total. by rewrite fold_left_app. Qed.

Lemma calc_total_decimal (ndigits : Z) (constituents : list Q)
    (indices : SOLUTION) :
  Forall (decimal ndigits) constituents →
  decimal ndigits (calc_total constituents indices).
Proof.
  intros Hall. induction indices as [|index indices IH] using rev_ind.
  - apply decimal_zero.
  - rewrite calc_total_snoc. apply decimal_plus; [done|].
    destruct (constituents !! index) as [c|] eqn:Hc; simpl.
    + rewrite Forall_forall in Hall. apply Hall.
      by eapply list_elem_of_lookup_2.
    + apply decimal_zero.
Qed.

Lemma within_proper (tol x y : Q) : x == y → within tol x = within tol y.
Proof.
  intros Heq. unfold within. simpl.
  by rewrite (Qleb_comp _ _ (Qeq_refl (- tol)) _ _ Heq),
             (Qleb_comp _ _ Heq _ _ (Qeq_refl tol)).
Qed.

Lemma drop_cons_lookup {A} (l : list A) (index : nat) (x : A)
    (rest : list A) :
  drop index l = x :: rest → l !! index = Some x ∧ drop (S index) l = rest.
Proof.
  intros Hdrop. split.
  - by rewrite <-(Nat.add_0_r index), <-lookup_drop, Hdrop.
  - replace (S index) with (index + 1)%nat by lia.
    by rewrite <-drop_drop, Hdrop.
Qed.

(** The loop keeps [total] equal to the rounded target minus the rounded
    constituents already taken, so a recorded subset sums to the target
    within [tol]. *)
Lemma search_spec_sound (constituents : list Q) (precision : Z) (tol : Q)
    (target : Q) (rest : list Q) :
  let rounded := (λ c, Qround_digits c precision) <$> constituents in
  let sound := λ solution : SOLUTION,
    within tol (target - calc_total rounded solution) = true in
  ∀ index used_indices total min_remaining all_solutions solutions,
  search_spec constituents rest index used_indices total precision tol
              min_remaining all_solutions = Return solutions →
  drop index constituents = rest →
  StronglySorted lt used_indices →
  Forall (λ i, (i < index)%nat) used_indices →
  decimal precision target →
  total == target - calc_total rounded used_indices →
  set_Forall sound all_solutions →
  set_Forall sound solutions.
Proof.
  intros rounded sound.
  assert (Forall (decimal precision) rounded) as Hrounded.
  { apply Forall_fmap, Forall_true. intros c. apply decimal_round. }
  induction rest as [|constituent rest IH];
    intros index used_indices total min_remaining all_solutions solutions;
    simpl.
  { intros [= <-]. done. }
  intros Hrun Hdrop Hsorted Hbelow Htarget Htotal Hall.
  apply drop_cons_lookup in Hdrop as [Hlookup Hdrop].
  assert (Hbelow' : Forall (λ i, (i < S index)%nat) used_indices).
  { eapply Forall_impl; [exact Hbelow|]. intros i Hi. simpl in Hi. lia. }
  assert (calc_total rounded (used_indices ++ [index]) =
          calc_total rounded used_indices
          + Qround_digits constituent precision) as Hsnoc.
  { rewrite calc_total_snoc. unfold rounded.
    by rewrite list_lookup_fmap, Hlookup. }
  assert (total - Qround_digits constituent precision ==
          target - calc_total rounded (used_indices ++ [index])) as Hnew.
  { rewrite Hsnoc, Htotal. ring. }
  destruct (Qltb _ _); [by eapply IH|].
  destruct (mem index used_indices); [by eapply IH|].
  destruct (within tol _) eqn:Hwithin.
  { eapply IH; [exact Hrun|done..|].
    apply set_Forall_union; [|done]. apply set_Forall_singleton.
    unfold sound.
    rewrite sorted_increasing by by apply increasing_snoc.
    by rewrite <-(within_proper _ _ _ Hnew). }
  unfold prologue in Hrun.
  destruct (min_list _) as [minimum|e]; simpl in Hrun; [|done].
  destruct (search_spec constituents rest (S index) (used_indices ++ [index])
                        _ _ _ _ ∅) as [inner|e] eqn:Hinner;
    simpl in Hrun; [|done].
  eapply IH; [exact Hrun|done..|].
  apply set_Forall_union; [done|].
  eapply IH; [exact Hinner|done| | |done| |].
  - by apply increasing_snoc.
  - apply Forall_app. split; [done|]. repeat constructor.
  - rewrite round_decimal; [done|].
    eapply decimal_proper; [symmetry; exact Hnew|].
    apply decimal_minus; [done|]. by apply calc_total_decimal.
  - apply set_Forall_empty.
Qed.

(** Soundness of the search as specified: with [precision] and [tol] kept
    through the recursion, every returned subset sums to the target within
    [tol] under the rounding policy. *)
Lemma find_constituents_spec_sound (constituents : list Q) (total : Q)
    (precision : Z) (tol : Q) (solutions : gset SOLUTION)
    (solution : SOLUTION) :
  find_constituents_spec constituents total [] precision tol
    = Return solutions →
  solution ∈ solutions →
  sums_to_rounded precision tol constituents total solution = true.
Proof.
  unfold find_constituents_spec, prologue. intros Hrun Hin.
  destruct (min_list _) as [minimum|e]; simpl in Hrun; [|done].
  rewrite drop_0 in Hrun.
  eapply (search_spec_sound constituents precision tol
            (Qround_digits total precision));
    [exact Hrun|done|constructor|constructor|apply decimal_round| |
     apply set_Forall_empty|exact Hin].
  unfold calc_total. simpl. ring.
Qed.



Lemma within_bounds (tol x : Q) :
  within tol x = true ↔ - tol <= x ∧ x <= tol.
Proof.
  unfold within. simpl. by rewrite andb_true_iff, !Qle_bool_iff.
Qed.

Lemma Qltb_false (a b : Q) : Qltb a b = false ↔ b <= a.
Proof.
  unfold Qltb. destruct (Qcompare a b) eqn:Hcmp.
  - apply Qeq_alt in Hcmp. split; [intros _; lra|done].
  - apply Qlt_alt in Hcmp. split; [done|intros; lra].
  - apply Qgt_alt in Hcmp. split; [intros _; lra|done].
Qed.


Lemma prefix_snoc_inv {A} (prefix l : list A) (x : A) :
  prefix `prefix_of` l ++ [x] → prefix = l ++ [x] ∨ prefix `prefix_of` l.
Proof.
  intros [k Hk]. destruct k as [|y k _] using rev_ind.
  - left. by rewrite app_nil_r in Hk.
  - right. rewrite (assoc_L (++)) in Hk.
    apply app_inj_tail in Hk as [-> _]. by exists k.
Qed.

(** The loop descends from [used_indices] only when no prefix of it meets
    the target, so no proper prefix of a recorded subset does. *)
Lemma search_spec_minimal (constituents : list Q) (precision : Z) (tol : Q)
    (target : Q) (rest : list Q) :
  let rounded := (λ c, Qround_digits c precision) <$> constituents in
  let misses := λ prefix : SOLUTION,
    within tol (target - calc_total rounded prefix) = false in
  let minimal := λ solution : SOLUTION,
    ∀ prefix, prefix `prefix_of` solution → prefix ≠ [] →
              prefix ≠ solution → misses prefix in
  ∀ index used_indices total min_remaining all_solutions solutions,
  search_spec constituents rest index used_indices total precision tol
              min_remaining all_solutions = Return solutions →
  drop index constituents = rest →
  StronglySorted lt used_indices →
  Forall (λ i, (i < index)%nat) used_indices →
  decimal precision target →
  total == target - calc_total rounded used_indices →
  (∀ prefix, prefix `prefix_of` used_indices → prefix ≠ [] → misses prefix) →
  set_Forall minimal all_solutions →
  set_Forall minimal solutions.
Proof.
  intros rounded misses minimal.
  assert (Forall (decimal precision) rounded) as Hrounded.
  { apply Forall_fmap, Forall_true. intros c. apply decimal_round. }
  induction rest as [|constituent rest IH];
    intros index used_indices total min_remaining all_solutions solutions;
    simpl.
  { intros [= <-]. done. }
  intros Hrun Hdrop Hsorted Hbelow Htarget Htotal Hused Hall.
  apply drop_cons_lookup in Hdrop as [Hlookup Hdrop].
  assert (Hbelow' : Forall (λ i, (i < S index)%nat) used_indices).
  { eapply Forall_impl; [exact Hbelow|]. intros i Hi. simpl in Hi. lia. }
  assert (calc_total rounded (used_indices ++ [index]) =
          calc_total rounded used_indices
          + Qround_digits constituent precision) as Hsnoc.
  { rewrite calc_total_snoc. unfold rounded.
    by rewrite list_lookup_fmap, Hlookup. }
  assert (total - Qround_digits constituent precision ==
          target - calc_total rounded (used_indices ++ [index])) as Hnew.
  { rewrite Hsnoc, Htotal. ring. }
  destruct (Qltb _ _); [by eapply IH|].
  destruct (mem index used_indices); [by eapply IH|].
  destruct (within tol _) eqn:Hwithin.
  { eapply IH; [exact Hrun|done..|].
    apply set_Forall_union; [|done]. apply set_Forall_singleton.
    rewrite sorted_increasing by by apply increasing_snoc.
    intros prefix [->|Hprefix]%prefix_snoc_inv Hne Hproper; [done|].
    by apply Hused. }
  unfold prologue in Hrun.
  destruct (min_list _) as [minimum|e]; simpl in Hrun; [|done].
  destruct (search_spec constituents rest (S index) (used_indices ++ [index])
                        _ _ _ _ ∅) as [inner|e] eqn:Hinner;
    simpl in Hrun; [|done].
  eapply IH; [exact Hrun|done..|].
  apply set_Forall_union; [done|].
  eapply IH; [exact Hinner|done| | |done| | |].
  - by apply increasing_snoc.
  - apply Forall_app. split; [done|]. repeat constructor.
  - rewrite round_decimal; [done|].
    eapply decimal_proper; [symmetry; exact Hnew|].
    apply decimal_minus; [done|]. by apply calc_total_decimal.
  - intros prefix [->|Hprefix]%prefix_snoc_inv Hne; [|by apply Hused].
    unfold misses. by rewrite <-(within_proper _ _ _ Hnew).
  - apply set_Forall_empty.
Qed.


Lemma round_half_even_nonneg (q : Q) : 0 <= q → (0 <= round_half_even q)%Z.
Proof.
  intros Hq. unfold round_half_even.
  assert (0 <= Qfloor q)%Z as Hfloor.
  { change 0%Z with (Qfloor 0). by apply Qfloor_resp_le. }
  destruct (Qcompare _ _); [destruct (Z.even _)|..]; lia.
Qed.

Lemma round_nonneg (q : Q) (ndigits : Z) :
  0 <= q → 0 <= Qround_digits q ndigits.
Proof.
  intros Hq. unfold Qround_digits. rewrite Qred_correct.
  pose proof (scale_pos ndigits) as Hscale.
  apply Qle_shift_div_l; [done|]. rewrite Qmult_0_l.
  change 0 with (inject_Z 0). rewrite <-Zle_Qle.
  apply round_half_even_nonneg, Qmult_le_0_compat; [done|lra].
Qed.

Lemma sum_list_nonneg (values : list Q) :
  Forall (Qle 0) values → 0 <= sum_list values.
Proof.
  induction 1 as [|value values Hvalue _ IH]; simpl; [lra|].
  change (foldr Qplus 0 values) with (sum_list values). lra.
Qed.

Lemma min_list_nonneg (values : list Q) (minimum : Q) :
  Forall (Qle 0) values → min_list values = Return minimum → 0 <= minimum.
Proof.
  destruct values as [|value values]; [done|].
  intros [Hvalue Hvalues]%Forall_cons [= <-].
  revert value Hvalue. induction Hvalues as [|next values Hnext _ IH];
    intros value Hvalue; simpl; [done|].
  apply IH. unfold min2. simpl. by destruct (Qltb next value).
Qed.

(** Clamped to at most 0, a non-negative minimum adds nothing to the
    bound. *)
Lemma clamp_nonneg (minimum : Q) :
  0 <= minimum → Qabs (min2 minimum 0) == 0.
Proof.
  intros Hminimum. unfold min2. simpl.
  destruct (Qltb 0 minimum) eqn:Hcmp; [done|].
  apply Qltb_false in Hcmp. assert (minimum == 0) as -> by lra. done.
Qed.

Lemma within_false (tol x : Q) : tol < x → within tol x = false.
Proof.
  intros Hx. destruct (within tol x) eqn:Hwithin; [|done].
  apply within_bounds in Hwithin. lra.
Qed.

(** With non-negative constituents and a target above what is left to
    take, the loop takes every remaining index in turn and ends in the
    [min] of an empty list. *)
Lemma search_exhausts (constituents : list Q) (rest : list Q) :
  Forall (Qle 0) constituents →
  ∀ index total min_remaining all_solutions,
  drop index constituents = rest → rest ≠ [] →
  decimal default_precision total →
  Qabs min_remaining == 0 →
  default_tol
    < total - sum_list ((λ c, Qround_digits c default_precision) <$> rest) →
  search constituents rest index (seq 0 index) total default_precision
         default_tol min_remaining all_solutions = Raise ValueError.
Proof.
  intros Hnonneg.
  induction rest as [|constituent rest IH];
    intros index total min_remaining all_solutions Hdrop Hne Hdecimal Hmin
           Hlarge; [done|].
  assert (Forall (Qle 0) (constituent :: rest)) as [Hc Hrest]%Forall_cons.
  { rewrite <-Hdrop. by apply Forall_drop. }
  apply drop_cons_lookup in Hdrop as [_ Hdrop].
  rewrite fmap_cons in Hlarge.
  change (sum_list (?value :: ?values)) with (value + sum_list values)
    in Hlarge.
  change (@default_tol Q Q_Number) with (1 # 10000) in Hlarge.
  pose proof (round_nonneg constituent default_precision Hc) as Hrc.
  assert (0 <= sum_list ((λ c, Qround_digits c default_precision) <$> rest))
    as Hsum.
  { apply sum_list_nonneg, Forall_fmap. eapply Forall_impl; [exact Hrest|].
    intros c. apply round_nonneg. }
  cbn [search].
  assert (gtb (round constituent default_precision)
              (add (add total default_tol) (absolute min_remaining))
          = false) as ->.
  { apply Qltb_false. simpl. rewrite Hmin. lra. }
  assert (mem index (seq 0 index) = false) as ->.
  { apply bool_decide_eq_false. rewrite elem_of_seq. lia. }
  assert (within default_tol (sub total (round constituent default_precision))
          = false) as ->.
  { apply within_false. simpl. lra. }
  replace (seq 0 index ++ [index]) with (seq 0 (S index))
    by by rewrite seq_S.
  unfold prologue. rewrite unused_seq, Hdrop.
  destruct rest as [|next rest']; [done|].
  destruct (min_list (next :: rest')) as [minimum|e] eqn:Hminimum; [|done].
  cbn [mbind result_bind fst snd].
  rewrite IH; [done..| | |].
  - apply decimal_round.
  - apply clamp_nonneg. by eapply min_list_nonneg.
  - change (@default_tol Q Q_Number) with (1 # 10000).
    change (@round Q Q_Number) with Qround_digits.
    change (@sub Q Q_Number) with Qminus.
    rewrite round_decimal; [lra|].
    apply decimal_minus; [done|apply decimal_round].
Qed.


Lemma calc_total_app_le (values : list Q) (indices more : SOLUTION) :
  Forall (Qle 0) values →
  calc_total values indices <= calc_total values (indices ++ more).
Proof.
  intros Hvalues. induction more as [|index more IH] using rev_ind.
  - rewrite app_nil_r. lra.
  - rewrite (assoc_L (++)), calc_total_snoc.
    assert (0 <= default 0 (values !! index)).
    { destruct (values !! index) as [value|] eqn:Hvalue; simpl; [|lra].
      rewrite Forall_forall in Hvalues. apply Hvalues.
      by eapply list_elem_of_lookup_2. }
    lra.
Qed.

Lemma prologue_nonneg (constituents : list Q) (total : Q)
    (used_indices : list nat) (precision : Z) (tm : Q * Q) :
  Forall (Qle 0) constituents →
  prologue constituents total used_indices precision = Return tm →
  tm.1 = Qround_digits total precision ∧ Qabs tm.2 == 0.
Proof.
  intros Hnonneg. unfold prologue.
  destruct (min_list _) as [minimum|e] eqn:Hminimum; [|done].
  intros [= <-]. split; [done|]. apply clamp_nonneg.
  eapply min_list_nonneg; [|exact Hminimum].
  apply Forall_forall. intros c Hc%unused_elem.
  rewrite Forall_forall in Hnonneg. by apply Hnonneg.
Qed.

(** On non-negative constituents the bound skips nothing that matters:
    the loop follows every increasing run of indices that meets the target
    at its end and not before. *)
Lemma search_complete (constituents : list Q) (target : Q) :
  Forall (Qle 0) constituents →
  decimal default_precision target →
  let rounded := (λ c, Qround_digits c default_precision) <$> constituents in
  ∀ extra used_indices index rest total min_remaining all_solutions solutions,
  search constituents rest index used_indices total default_precision
         default_tol min_remaining all_solutions = Return solutions →
  drop index constituents = rest →
  StronglySorted lt used_indices →
  Forall (λ i, (i < index)%nat) used_indices →
  total == target - calc_total rounded used_indices →
  Qabs min_remaining == 0 →
  StronglySorted lt extra →
  Forall (λ i, (index ≤ i < length constituents)%nat) extra →
  extra ≠ [] →
  within default_tol (target - calc_total rounded (used_indices ++ extra))
    = true →
  (∀ prefix, prefix `prefix_of` extra → prefix ≠ [] → prefix ≠ extra →
     within default_tol
            (target - calc_total rounded (used_indices ++ prefix)) = false) →
  used_indices ++ extra ∈ solutions.
Proof.
  intros Hnonneg Htarget rounded.
  assert (Forall (Qle 0) rounded) as Hrounded.
  { apply Forall_fmap. eapply Forall_impl; [exact Hnonneg|].
    intros c. apply round_nonneg. }
  assert (Forall (decimal default_precision) rounded) as Hdecimal.
  { apply Forall_fmap, Forall_true. intros c. apply decimal_round. }
  induction extra as [|i extra IH];
    intros used_indices index rest total min_remaining all_solutions solutions
           Hrun Hdrop Hsorted Hbelow Htotal Hmin Hextra Hrange Hne Hhit Hmiss;
    [done|].
  apply StronglySorted_inv in Hextra as [Hextra Hafter].
  apply Forall_cons in Hrange as [[Hge Hlt] Hrange].
  destruct (lookup_lt_is_Some_2 constituents i Hlt) as [constituent Hlookup].
  assert (rest !! (i - index)%nat = Some constituent) as Hoffset.
  { rewrite <-Hdrop, lookup_drop. by replace (index + (i - index))%nat with i
      by lia. }
  assert (Forall (λ j, (j < i)%nat) used_indices) as Hbelow'.
  { eapply Forall_impl; [exact Hbelow|]. intros j Hj. simpl in Hj. lia. }
  assert (calc_total rounded (used_indices ++ [i]) =
          calc_total rounded used_indices
          + Qround_digits constituent default_precision) as Hsnoc.
  { rewrite calc_total_snoc. unfold rounded.
    by rewrite list_lookup_fmap, Hlookup. }
  assert (total - Qround_digits constituent default_precision ==
          target - calc_total rounded (used_indices ++ [i])) as Hnew.
  { rewrite Hsnoc, Htotal. ring. }
  pose proof (calc_total_app_le rounded (used_indices ++ [i]) extra Hrounded)
    as Hle.
  rewrite <-(assoc_L (++)) in Hle. simpl in Hle.
  apply within_bounds in Hhit as Hhit'. destruct Hhit' as [Hlow Hhigh].
  assert (gtb (round constituent default_precision)
              (add (add total default_tol) (absolute min_remaining))
          = false) as Hbound.
  { apply Qltb_false. simpl. rewrite Hmin. simpl in Hlow. lra. }
  assert (mem (index + (i - index)) used_indices = false) as Hmem.
  { apply bool_decide_eq_false. intros Hin.
    rewrite Forall_forall in Hbelow. specialize (Hbelow _ Hin). lia. }
  replace (index + (i - index))%nat with i in Hmem by lia.
  destruct extra as [|next extra'].
  - rewrite <-(sorted_increasing (used_indices ++ [i]))
      by by apply increasing_snoc.
    replace i with (index + (i - index))%nat at 1 by lia.
    eapply search_records; [exact Hrun|exact Hoffset|exact Hbound| |].
    + by replace (index + (i - index))%nat with i by lia.
    + by rewrite (within_proper _ _ _ Hnew).
  - assert (within default_tol
              (sub total (round constituent default_precision)) = false)
      as Hwithin.
    { rewrite (within_proper _ _ _ Hnew). apply Hmiss; [|done..].
      by apply (prefix_cons _ [] (next :: extra')), prefix_nil. }
    destruct (search_descends _ _ _ _ _ _ _ _ _ _ _ _ Hrun Hoffset Hbound
                ltac:(by replace (index + (i - index))%nat with i by lia)
                Hwithin) as (tm & inner & Hprologue & Hinner & Hsub).
    replace (index + (i - index))%nat with i in * by lia.
    apply prologue_nonneg in Hprologue as [Htm1 Htm2]; [|done].
    apply Hsub. rewrite (cons_middle i), (assoc_L (++)).
    eapply IH; [exact Hinner| |by apply increasing_snoc| | |exact Htm2|done|
                | |by rewrite <-(assoc_L (++))|].
    + rewrite <-Hdrop, drop_drop. f_equal. lia.
    + apply Forall_app. split; [|by repeat constructor].
      eapply Forall_impl; [exact Hbelow'|]. intros j Hj. simpl in Hj. lia.
    + rewrite Htm1, round_decimal; [done|].
      eapply decimal_proper; [symmetry; exact Hnew|].
      apply decimal_minus; [done|]. by apply calc_total_decimal.
    + rewrite Forall_forall in Hafter, Hrange. apply Forall_forall.
      intros j Hj. specialize (Hafter j Hj). specialize (Hrange j Hj). lia.
    + done.
    + intros prefix Hprefix Hne' Hproper. rewrite <-(assoc_L (++)).
      apply Hmiss; [by apply prefix_cons|done|by intros [= ->]].
Qed.


End Exact.

(** ** Runs on exact rationals *)

Section Runs.
Local Open Scope Q_scope.

(** C1. [find_constituents([1], 5)]: the branch that takes index 0 is left
    with the target 4 and no constituent; the recursive call then takes the
    minimum of an empty list and raises [ValueError].  The same happens on
    [[1, 2, 3]] with total 7. *)
Theorem find_constituents_exhausted_raises :
  find_constituents (ints [1]%Z) 5 [] default_precision default_tol
    = Raise ValueError ∧
  find_constituents (ints [1; 2; 3]%Z) 7 [] default_precision default_tol
    = Raise ValueError.
Proof. split; vm_compute; reflexivity. Qed.

(** C2. [find_constituents([5, -3, -3], -1)]: the values at [(0, 1, 2)] sum
    to -1, and no other subset does, yet the result is empty.  At the top
    level the bound is [-1 + tol + |-3|], below 5, so index 0 is skipped,
    although the two negative constituents together bring 5 down to -1. *)
Theorem find_constituents_misses_negative_completion :
  let constituents := ints [5; -3; -3]%Z in
  find_constituents constituents (-1) [] default_precision default_tol
    = Return ∅ ∧
  sums_to default_tol constituents (-1) [0; 1; 2]%nat = true ∧
  sums_to_rounded default_precision default_tol constituents (-1)
                  [0; 1; 2]%nat = true.
Proof. repeat split; vm_compute; reflexivity. Qed.

(** C3. The recursive call runs with the default [precision] and [tol],
    not with those of the caller.  With [tol = 0.5] on [[1, 2]] and total
    2.6 the code finds nothing where the search with [tol] kept finds
    [(0, 1)]; with [precision = 0] on [[1, 2.4]] and total 3 likewise. *)
Theorem find_constituents_drops_parameters :
  find_constituents (ints [1; 2]%Z) (13 # 5) [] default_precision (1 # 2)
    = Return ∅ ∧
  find_constituents_spec (ints [1; 2]%Z) (13 # 5) [] default_precision (1 # 2)
    = Return {[ [0; 1]%nat ]} ∧
  find_constituents [1; 12 # 5] 3 [] 0 default_tol
    = Return ∅ ∧
  find_constituents_spec [1; 12 # 5] 3 [] 0 default_tol
    = Return {[ [0; 1]%nat ]}.
Proof. repeat split; vm_compute; reflexivity. Qed.

(** C5. [find_constituents([1, 1.0004], 2, precision=4)] returns [(0, 1)]:
    the recursive call rounds 1.0004 to three decimals, not four.  The
    values sum to 2.0004, which is not within [tol = 1e-4] of 2, rounded to
    four decimals or not. *)
Theorem find_constituents_unsound_precision :
  let constituents := [1; 10004 # 10000] in
  find_constituents constituents 2 [] 4 default_tol
    = Return {[ [0; 1]%nat ]} ∧
  sums_to default_tol constituents 2 [0; 1]%nat = false ∧
  sums_to_rounded 4 default_tol constituents 2 [0; 1]%nat = false.
Proof. repeat split; vm_compute; reflexivity. Qed.

(** C7. Constituents [[1,2,3,4,5,6]] and totals [[12, 9]]: the pipeline
    returns exactly 5 distinct combinations, each made of a subset summing
    to 12 and a subset summing to 9 that share no index; so with the default
    precision of [find_unique_solutions] (3) and with that of the command
    line (2). *)
Theorem end_to_end_scenario :
  let constituents := ints [1; 2; 3; 4; 5; 6]%Z in
  Forall (λ precision,
    ∃ combinations,
      find_unique_solutions constituents (ints [12; 9]%Z)
                            default_tol precision
        = Return combinations ∧
      length combinations = 5%nat ∧
      NoDup combinations ∧
      Forall (λ combination,
                ∃ twelve nine,
                  combination = [twelve; nine] ∧
                  calc_total constituents twelve == 12 ∧
                  calc_total constituents nine == 9 ∧
                  twelve ## nine) combinations)
    [3; 2]%Z.
Proof.
  repeat (constructor;
    [eexists; split; [vm_compute; reflexivity|];
     split; [reflexivity|]; split;
     [apply (bool_decide_unpack _); vm_compute; exact I|];
     repeat (constructor; [do 2 eexists; split; [reflexivity|];
                           split; [reflexivity|]; split; [reflexivity|];
                           apply disjoint_Forall, (bool_decide_unpack _);
                           vm_compute; exact I|]);
     constructor|]).
  constructor.
Qed.

(** The five subsets of [[1,2,3,4,5,6]] that sum to 9. *)
Lemma find_constituents_canonical_witness :
  let solutions : gset SOLUTION :=
    list_to_set [[0; 1; 5]; [3; 4]; [1; 2; 3]; [2; 5]; [0; 2; 4]]%nat in
  StronglySorted lt [3; 4]%nat ∧
  NoDup [3; 4]%nat ∧
  Forall (λ i, (i < 6)%nat) [3; 4]%nat ∧
  NoDup (elements solutions) ∧
  ∀ other, other ∈ solutions → other ≡ₚ [3; 4]%nat → other = [3; 4]%nat.
Proof.
  apply (find_constituents_canonical
           (ints [1; 2; 3; 4; 5; 6]%Z) 9 default_precision default_tol).
  - vm_compute. reflexivity.
  - apply elem_of_list_to_set. right. left.
Defined.

End Runs.

(** ** Instances of the results above *)

Section Instances.
Local Open Scope Q_scope.

Lemma find_constituents_extends_used_witness :
  ∃ extra,
    extra ≠ [] ∧ [0; 3; 4]%nat = sorted ([0%nat] ++ extra) ∧
    StronglySorted lt extra ∧
    Forall (λ i, (start_index_of [0%nat] ≤ i < 6)%nat ∧ i ∉ [0%nat]) extra.
Proof.
  apply (find_constituents_extends_used
           (ints [1; 2; 3; 4; 5; 6]%Z) 9 [0%nat] default_precision default_tol
           (list_to_set [[0; 2; 5]; [0; 3; 4]; [0; 1; 2; 3]]%nat)).
  - vm_compute. reflexivity.
  - apply elem_of_list_to_set. right. left.
Defined.

Lemma find_constituents_never_empty_witness : [] ∉ (∅ : gset SOLUTION).
Proof.
  apply (find_constituents_never_empty
           (ints [1; 2; 3]%Z) 0 [] default_precision default_tol).
  vm_compute. reflexivity.
Defined.

Lemma find_unique_solutions_structure_witness :
  length [[2]; [0; 1]]%nat = 2%nat ∧
  Forall (canonical 3) [[2]; [0; 1]]%nat ∧
  pairwise_disjoint [[2]; [0; 1]]%nat ∧
  NoDup (concat [[2]; [0; 1]]%nat) ∧
  (length (concat [[2]; [0; 1]]%nat) ≤ 3)%nat.
Proof.
  apply (find_unique_solutions_structure
           (ints [1; 2; 3]%Z) (ints [3; 3]%Z) default_tol default_precision
           [[[2]; [0; 1]]; [[0; 1]; [2]]]%nat).
  - vm_compute. reflexivity.
  - left.
Defined.

Lemma find_unique_solutions_unsatisfiable_witness :
  find_unique_solutions (ints [5; 1; 2]%Z) (ints [3; 4]%Z)
                        default_tol default_precision = Return [].
Proof.
  apply (find_unique_solutions_unsatisfiable
           (ints [5; 1; 2]%Z) (ints [3; 4]%Z) default_tol default_precision 4).
  - intros total' [->|[->|[]%elem_of_nil]%elem_of_cons]%elem_of_cons;
      eexists; vm_compute; reflexivity.
  - right. left.
  - vm_compute. reflexivity.
Defined.

Lemma print_unique_solutions_report_witness :
  print_unique_solutions [[[0; 1]; [2]]]%nat (ints [1; 2; 3]%Z)
                         (ints [3; 3]%Z)
  = (report (ints [1; 2; 3]%Z) (ints [3; 3]%Z) [[[0; 1]; [2]]]%nat,
     Return ()).
Proof.
  apply (print_unique_solutions_report
           (ints [1; 2; 3]%Z) (ints [3; 3]%Z) [[[0; 1]; [2]]]%nat).
  repeat constructor; simpl; lia.
Defined.







End Instances.
